(** * The directed multi-relation graph of [graph/graph.go]

    A shallow embedding of package [graph]: nodes, arcs and their relation
    maps, the arc key of [Arc.GetMeta], the point operations [CreateArc],
    [GetRelation] and [UpdateRelation], and the traversal operations
    [QueryTails], [QueryHeads], [ForEachTail] and [ForEachHead].

    Go values are embedded as follows.
    - [string] and the string types [NodeId], [RelationVerb], [db.ObjType]
      are Rocq strings.
    - [map[RelationVerb]bool] is [option (gmap string bool)]: [None] is the
      nil map, which reads as empty, ignores [delete] and faults on a write.
    - [int] is a 64-bit two's complement integer, a [Z] with its wrap-around
      written out in [wrap].
    - [time.Time] is a [Z] (an instant); the zero time is [0].
    - a function returning [error] returns a [result]; a run-time fault
      (a Go panic) is the third outcome [Panic]. *)

From Stdlib Require Import Ascii.
From stdpp Require Import gmap strings list fin_maps pretty sorting.

Open Scope Z_scope.

(** ** Data model *)

Abbreviation ObjType := string (only parsing).
Abbreviation NodeId := string (only parsing).
Abbreviation RelationVerb := string (only parsing).
Abbreviation time_Time := Z (only parsing).

(** [type Node struct]: the fields [Type], [Id], [Name], [Photo]. *)
Record Node := mkNode {
  NodeType : ObjType;
  Id : NodeId;
  Name : string;
  Photo : string;
}.

(** [type Relation map[RelationVerb]bool]; [None] is the nil map. *)
Abbreviation Relation := (option (gmap string bool)) (only parsing).

(** [type Options struct]. *)
Record Options := mkOptions { Ord : Z }.

(** [type Arc struct]: the fields [Type], [Tail], [Head], [Relation],
    [Options], [CreatedAt]. *)
Record Arc := mkArc {
  ArcType : ObjType;
  Tail : Node;
  Head : Node;
  ArcRelation : Relation;
  ArcOptions : Options;
  CreatedAt : time_Time;
}.

(** The predefined verbs used in the examples. *)
Definition FOLLOW : RelationVerb := "follow".
Definition LIKE : RelationVerb := "like".

Definition OBJ_ARC : ObjType := "arc".

(** The zero value of [Node]. *)
Definition zeroNode : Node := mkNode EmptyString EmptyString EmptyString EmptyString.

#[global] Instance Node_eq_dec : EqDecision Node.
Proof. solve_decision. Defined.
#[global] Instance Options_eq_dec : EqDecision Options.
Proof. solve_decision. Defined.
#[global] Instance Arc_eq_dec : EqDecision Arc.
Proof. solve_decision. Defined.

(** The nodes [user:1] and [user:2] of the examples. *)
Definition user1 : Node := mkNode "user" "1" "alice" EmptyString.
Definition user2 : Node := mkNode "user" "2" "bob" EmptyString.

(** ** Go map operations on a relation map *)

(** [r[key]] with the comma-ok form: [None] when the key is absent. *)
Definition rel_get (r : Relation) (key : RelationVerb) : option bool :=
  match r with
  | None => None
  | Some m => m !! key
  end.

(** [r[key] = val]: an assignment to an entry of the nil map faults. *)
Definition rel_set (r : Relation) (key : RelationVerb) (val : bool)
  : option Relation :=
  match r with
  | None => None
  | Some m => Some (Some (<[key := val]> m))
  end.

(** [delete(r, key)]: a no-op on the nil map. *)
Definition rel_delete (r : Relation) (key : RelationVerb) : Relation :=
  match r with
  | None => None
  | Some m => Some (delete key m)
  end.

(** The entries a [range] over the map visits, in one of the orders it may
    take (Go leaves the order unspecified). *)
Definition rel_entries (r : Relation) : list (RelationVerb * bool) :=
  match r with
  | None => []
  | Some m => map_to_list m
  end.

(** ** 64-bit integers and their decimal text *)

Definition max_int : Z := 2 ^ 63 - 1.

Definition wrap (z : Z) : Z := (z + 2 ^ 63) `mod` 2 ^ 64 - 2 ^ 63.

(** [fmt.Sprintf("%d", n)]. *)
Definition fmt_d (n : Z) : string := pretty n.

(** ** The arc key *)

(** [db.ObjMeta], without the constant bucket. *)
Record ObjMeta := mkObjMeta { MetaType : ObjType; MetaId : string }.

(** [fmt.Sprintf("%s:%s>%s:%s", tk, ti, hk, hi)]. *)
Definition key_of (tk ti hk hi : string) : string :=
  tk +:+ ":" +:+ ti +:+ ">" +:+ hk +:+ ":" +:+ hi.

(** [func (a *Arc) GetMeta() db.ObjMeta]. *)
Definition GetMeta (a : Arc) : ObjMeta :=
  {| MetaType := OBJ_ARC;
     MetaId := key_of (NodeType (Tail a)) (Id (Tail a))
                      (NodeType (Head a)) (Id (Head a)) |}.

(** [func (a *Arc) SetType()]. *)
Definition SetType (a : Arc) : Arc :=
  mkArc OBJ_ARC (Tail a) (Head a) (ArcRelation a) (ArcOptions a) (CreatedAt a).

(** The key of the arc from [tail] to [head]: [deriveKey] of the
    specification. *)
Definition deriveKey (tail head : Node) : string :=
  MetaId (GetMeta (mkArc EmptyString tail head None (mkOptions 0) 0)).

(** [c] occurs in [s]. *)
Fixpoint occurs (c : Ascii.ascii) (s : string) : bool :=
  match s with
  | EmptyString => false
  | String d s' => if decide (c = d) then true else occurs c s'
  end.

(** A node whose kind holds no [':'] and whose id holds no ['>']: the
    separators of the key cannot be mistaken for its text. *)
Definition plain_node (n : Node) : Prop :=
  occurs ":"%char (NodeType n) = false ∧ occurs ">"%char (Id n) = false.

(** ** Outcomes and the store

    Package [db] (github.com/sath33sh/infra/db) is an external collaborator
    and not part of this repository: its operations are modelled from the
    contract the specification states for them (section 6), over an explicit
    store state. *)

(** The errors of the store contract: [NotFound], [LockTimeout] or
    [LockContention], and [StoreError]. *)
Inductive Err := ERR_NOT_FOUND | ERR_LOCKED | ERR_STORE.

Inductive result (A : Type) : Type :=
  | Ok (a : A)
  | Fail (e : Err)
  | Panic.
Arguments Ok {A} a.
Arguments Fail {A} e.
Arguments Panic {A}.

#[global] Instance Err_eq_dec : EqDecision Err.
Proof. solve_decision. Defined.

(** [db.Lock]: the token of a held lock. *)
Abbreviation Lock := N (only parsing).

(** The paged statements of the traversal operations, read clause by
    clause: [SELECT <Select>.*], [WHERE type=<WhereType> AND
    <WhereEnd>.type=<WhereKind> AND <WhereEnd>.id=<WhereId> AND
    relation.<WhereVerb>=true], and [ORDER BY <Select>.name] when
    [OrderByName] is set. *)
Inductive Endpoint := EpTail | EpHead.

Record Stmt := mkStmt {
  Select : Endpoint;
  WhereType : ObjType;
  WhereEnd : Endpoint;
  WhereKind : ObjType;
  WhereId : NodeId;
  WhereVerb : RelationVerb;
  OrderByName : bool;
}.

#[global] Instance Endpoint_eq_dec : EqDecision Endpoint.
Proof. solve_decision. Defined.
#[global] Instance Stmt_eq_dec : EqDecision Stmt.
Proof. solve_decision. Defined.

(** The state of the world outside the package: the documents of the
    bucket in the order a scan of the bucket visits them, the advisory locks
    held, the next lock token, the outcome the store has in stock for each
    coming call ([Some e]: the call fails with [e]; [None] or no entry: the
    store answers), and the paged queries run so far with their limit and
    offset, oldest first. *)
Record World := mkWorld {
  docs : list (string * Arc);
  locks : gmap string N;
  next_lock : N;
  faults : list (option Err);
  queries : list (Stmt * Z * Z);
}.

Definition emptyWorld : World := mkWorld [] ∅ 0%N [] [].

(** Code that talks to the store: a state and error monad. *)
Definition M (A : Type) : Type := World → result A * World.

Definition ret {A} (a : A) : M A := λ w, (Ok a, w).

Definition bind {A B} (m : M A) (f : A → M B) : M B :=
  λ w, match m w with
       | (Ok a, w') => f a w'
       | (Fail e, w') => (Fail e, w')
       | (Panic, w') => (Panic, w')
       end.

Definition panic {A} : M A := λ w, (Panic, w).

(** Point lookup and replacement in the bucket. *)
Fixpoint doc_get (k : string) (ds : list (string * Arc)) : option Arc :=
  match ds with
  | [] => None
  | (k', a) :: ds' => if decide (k = k') then Some a else doc_get k ds'
  end.

Fixpoint doc_put (k : string) (a : Arc) (ds : list (string * Arc))
  : list (string * Arc) :=
  match ds with
  | [] => [(k, a)]
  | (k', a') :: ds' =>
      if decide (k = k') then (k, a) :: ds' else (k', a') :: doc_put k a ds'
  end.

Definition set_faults (fs : list (option Err)) (w : World) : World :=
  mkWorld (docs w) (locks w) (next_lock w) fs (queries w).

(** A call of the store: it fails when the store has a failure in stock,
    and runs [op] otherwise. *)
Definition store_call {A} (op : M A) : M A :=
  λ w, match faults w with
       | Some e :: fs => (Fail e, set_faults fs w)
       | None :: fs => op (set_faults fs w)
       | [] => op w
       end.

(** Modelled from the spec: [db.Get] is missing; [pointGet(doc) → error]
    reads the document under the key of [doc], failing with [NotFound]
    when absent. *)
Definition db_Get (a : Arc) : M Arc :=
  store_call (λ w,
    match doc_get (MetaId (GetMeta a)) (docs w) with
    | Some d => (Ok d, w)
    | None => (Fail ERR_NOT_FOUND, w)
    end).

(** Modelled from the spec: [db.Upsert] is missing; [pointUpsert(doc, ttl)
    → error] is an unconditional create-or-replace by derived key. The
    document is stamped with its type through [SetType]. *)
Definition db_Upsert (a : Arc) (ttl : Z) : M unit :=
  store_call (λ w,
    (Ok tt,
     mkWorld (doc_put (MetaId (GetMeta a)) (SetType a) (docs w))
             (locks w) (next_lock w) (faults w) (queries w))).

(** Modelled from the spec: [db.GetLock] is missing; [lockForUpdate(doc) →
    (lockToken, error)] acquires the exclusive lock of the key, populating
    [doc] with the current content, or leaving the zero values of [doc] in
    place when there is no document (lock-on-absence); it fails when the
    lock is held. *)
Definition db_GetLock (a : Arc) : M (Arc * Lock) :=
  store_call (λ w,
    let k := MetaId (GetMeta a) in
    match locks w !! k with
    | Some _ => (Fail ERR_LOCKED, w)
    | None =>
        (Ok (default a (doc_get k (docs w)), next_lock w),
         mkWorld (docs w) (<[k := next_lock w]> (locks w))
                 (N.succ (next_lock w)) (faults w) (queries w))
    end).

(** Modelled from the spec: [db.WriteUnlock] is missing;
    [unlockAndWrite(doc, lockToken, ttl) → error] writes the document and
    releases the lock in one step; it fails when [lockToken] does not hold
    the lock of the key. *)
Definition db_WriteUnlock (a : Arc) (lock : Lock) (ttl : Z) : M unit :=
  store_call (λ w,
    let k := MetaId (GetMeta a) in
    if decide (locks w !! k = Some lock) then
      (Ok tt,
       mkWorld (doc_put k (SetType a) (docs w)) (delete k (locks w))
               (next_lock w) (faults w) (queries w))
    else (Fail ERR_STORE, w)).

(** The rows of a statement over the bucket: the arcs that pass the filter,
    in scan order, projected on the selected endpoint, and sorted by name
    (byte-wise, ascending) when the statement orders them. *)
Definition endpoint (e : Endpoint) (a : Arc) : Node :=
  match e with
  | EpTail => Tail a
  | EpHead => Head a
  end.

Definition matches (q : Stmt) (a : Arc) : bool :=
  bool_decide (ArcType a = WhereType q)
  && bool_decide (NodeType (endpoint (WhereEnd q) a) = WhereKind q)
  && bool_decide (Id (endpoint (WhereEnd q) a) = WhereId q)
  && bool_decide (rel_get (ArcRelation a) (WhereVerb q) = Some true).

Definition name_le (x y : Node) : Prop := String.leb (Name x) (Name y) = true.

#[global] Instance name_le_dec x y : Decision (name_le x y).
Proof. unfold name_le. apply _. Defined.

#[global] Instance name_le_total : Total name_le.
Proof. intros x y. apply String.leb_total. Qed.

Definition scan (q : Stmt) (ds : list (string * Arc)) : list Node :=
  endpoint (Select q) <$> List.filter (matches q) (ds.*2).

Definition rows (q : Stmt) (ds : list (string * Arc)) : list Node :=
  if OrderByName q then merge_sort name_le (scan q ds) else scan q ds.

(** [LIMIT limit OFFSET offset]. *)
Definition page (limit offset : Z) (l : list Node) : list Node :=
  take (Z.to_nat limit) (drop (Z.to_nat offset) l).

(** ** Query results *)

(** [type NodeQueryResult struct]. *)
Record NodeQueryResult := mkNodeQueryResult {
  Results : list Node;
  NextOffset : string;
  PrevOffset : string;
}.

(** [var qr NodeQueryResult]. *)
Definition zeroQR : NodeQueryResult :=
  mkNodeQueryResult [] EmptyString EmptyString.

Definition set_Results (rs : list Node) (qr : NodeQueryResult)
  : NodeQueryResult :=
  mkNodeQueryResult rs (NextOffset qr) (PrevOffset qr).

(** [func (qr *NodeQueryResult) GetRowPtr(index int) interface{}]: the
    result after the call, and the slot the returned pointer refers to
    ([None] for nil). The store calls it with the indices of the rows. *)
Definition GetRowPtr (qr : NodeQueryResult) (index : nat)
  : NodeQueryResult * option nat :=
  if decide (index < length (Results qr))%nat then (qr, Some index)
  else if decide (index = length (Results qr)) then
    (set_Results (Results qr ++ [zeroNode]) qr, Some index)
  else (qr, None).

(** The store decodes row [index] into the slot [GetRowPtr] hands out. *)
Definition put_row (qr : NodeQueryResult) (index : nat) (row : Node)
  : NodeQueryResult :=
  match GetRowPtr qr index with
  | (qr', Some slot) => set_Results (<[slot := row]> (Results qr')) qr'
  | (qr', None) => qr'
  end.

Fixpoint put_rows (qr : NodeQueryResult) (index : nat) (rs : list Node)
  : NodeQueryResult :=
  match rs with
  | [] => qr
  | row :: rs' => put_rows (put_row qr index row) (S index) rs'
  end.

(** Modelled from the spec: [db.ExecPagedQuery] is missing;
    [executePagedQuery(filterExpression, limit, offset) → (rows, size,
    error)] runs the statement, returning up to [limit] rows starting at
    [offset]; the rows are handed to the result through [GetRowPtr]. *)
Definition db_ExecPagedQuery (qr : NodeQueryResult) (queryStmt : Stmt)
    (limit offset : Z) : M (NodeQueryResult * Z) :=
  store_call (λ w,
    let rs := page limit offset (rows queryStmt (docs w)) in
    (Ok (put_rows qr 0 rs, Z.of_nat (length rs)),
     mkWorld (docs w) (locks w) (next_lock w) (faults w)
             (queries w ++ [(queryStmt, limit, offset)]))).

(** ** The operations of package [graph] *)

(** [func CreateArc(tail, head *Node, r *Relation, opts Options) (err
    error)]; [now] is the reading of [time.Now()]. *)
Definition CreateArc (now : time_Time) (tail head : Node) (r : Relation)
    (opts : Options) : M unit :=
  let a := mkArc EmptyString tail head r opts now in
  db_Upsert a 0.

(** The arc literal [Arc{Tail: Node{Type: tail.Type, Id: tail.Id}, Head:
    Node{Type: head.Type, Id: head.Id}}] of [GetRelation] and
    [UpdateRelation]. *)
Definition probe (tail head : Node) : Arc :=
  mkArc EmptyString
        (mkNode (NodeType tail) (Id tail) EmptyString EmptyString)
        (mkNode (NodeType head) (Id head) EmptyString EmptyString)
        None (mkOptions 0) 0.

(** [func GetRelation(tail, head *Node) (r Relation, err error)]. *)
Definition GetRelation (tail head : Node) : M Relation :=
  bind (db_Get (probe tail head)) (λ a, ret (ArcRelation a)).

(** The loop [for key, val := range *r { ... }] of [UpdateRelation] over
    the entries in the order the range visits them; [None] is the fault of
    a write to the nil map. *)
Fixpoint merge (rel : Relation) (es : list (RelationVerb * bool))
  : option Relation :=
  match es with
  | [] => Some rel
  | (key, val) :: es' =>
      if val then
        match rel_set rel key val with
        | Some rel' => merge rel' es'
        | None => None
        end
      else merge (rel_delete rel key) es'
  end.

(** [UpdateRelation] after the locked read: the update of the endpoints
    and the merge, on the local copy [la]. *)
Definition update_locked (la : Arc) (tail head : Node)
    (es : list (RelationVerb * bool)) : option Arc :=
  match merge (ArcRelation la) es with
  | Some rel =>
      Some (mkArc (ArcType la) tail head rel (ArcOptions la) (CreatedAt la))
  | None => None
  end.

(** [func UpdateRelation(tail, head *Node, r *Relation) (err error)], with
    the order [es] in which the range visits the entries of [*r]. *)
Definition UpdateRelation_in (es : list (RelationVerb * bool))
    (tail head : Node) : M unit :=
  bind (db_GetLock (probe tail head)) (λ '(la, lock),
    match update_locked la tail head es with
    | Some la' => db_WriteUnlock la' lock 0
    | None => panic
    end).

Definition UpdateRelation (tail head : Node) (r : Relation) : M unit :=
  UpdateRelation_in (rel_entries r) tail head.

(** The arc the locked read of [UpdateRelation] yields in a world where
    the lock is free and the store answers. *)
Definition locked_read (tail head : Node) (w : World) : Arc :=
  default (probe tail head) (doc_get (deriveKey tail head) (docs w)).

(** [qr.Results[:size]]: a fault when [size] is negative or beyond the
    length (the capacity of the slice is not modelled). *)
Definition slice_to (rs : list Node) (size : Z) : option (list Node) :=
  if decide (0 ≤ size ≤ Z.of_nat (length rs)) then
    Some (take (Z.to_nat size) rs)
  else None.

(** The statement of [QueryTails] and [ForEachTail], which fixes the head
    and selects the tail, and that of [QueryHeads] and [ForEachHead], which
    fixes the tail and selects the head; [ordered] tells whether it ends in
    [ORDER BY tail.name] or [ORDER BY head.name]. *)
Definition tails_stmt (head : Node) (r : RelationVerb) (ordered : bool)
  : Stmt :=
  mkStmt EpTail OBJ_ARC EpHead (NodeType head) (Id head) r ordered.

Definition heads_stmt (tail : Node) (r : RelationVerb) (ordered : bool)
  : Stmt :=
  mkStmt EpHead OBJ_ARC EpTail (NodeType tail) (Id tail) r ordered.

(** The common body of [QueryTails] and [QueryHeads] after the statement
    is built. *)
Definition query_page (qr : NodeQueryResult) (queryStmt : Stmt)
    (limit offset : Z) : M (NodeQueryResult * Z) :=
  bind (db_ExecPagedQuery qr queryStmt limit offset) (λ '(qr, size),
    match slice_to (Results qr) size with
    | Some rs =>
        ret (mkNodeQueryResult rs (fmt_d (wrap (offset + size)))
                               (fmt_d offset), size)
    | None => panic
    end).

(** [func (qr *NodeQueryResult) QueryTails(head *Node, r RelationVerb,
    limit, offset int) (size int, err error)]: the result and the size. *)
Definition QueryTails (qr : NodeQueryResult) (head : Node)
    (r : RelationVerb) (limit offset : Z) : M (NodeQueryResult * Z) :=
  query_page qr (tails_stmt head r true) limit offset.

(** [func (qr *NodeQueryResult) QueryHeads(tail *Node, r RelationVerb,
    limit, offset int) (size int, err error)]. *)
Definition QueryHeads (qr : NodeQueryResult) (tail : Node)
    (r : RelationVerb) (limit offset : Z) : M (NodeQueryResult * Z) :=
  query_page qr (heads_stmt tail r true) limit offset.

(** How a call of [ForEachTail] or [ForEachHead] ends: it returns (there is
    no error result), or it faults. The state of the caller that the
    callback works on is carried along. *)
Inductive ended (S : Type) : Type :=
  | Returned (s : S)
  | Faulted.
Arguments Returned {S} s.
Arguments Faulted {S}.

Section ForEach.
Context {S : Type}.
(** [db.QUERY_LIMIT_MAX], a constant of the store package. *)
Variable QUERY_LIMIT_MAX : Z.
(** The callback [cb func(n *Node)], as its effect on the caller's state. *)
Variable cb : Node → S → S.

(** [for index := 0; index < size; index++ { cb(&qr.Results[index]) }];
    [n] counts the rows left; [None] is an index out of range. *)
Fixpoint each_row (results : list Node) (index n : nat) (s : S)
  : option S :=
  match n with
  | O => Some s
  | Datatypes.S n' =>
      match results !! index with
      | Some row => each_row results (Datatypes.S index) n' (cb row s)
      | None => None
      end
  end.

(** [for size == db.QUERY_LIMIT_MAX { ... }] with [fuel] bounding the
    number of rounds; [None] when a round is due and the fuel has run
    out. *)
Fixpoint forEach_loop (fuel : nat) (queryStmt : Stmt) (size offset : Z)
    (s : S) (w : World) : option (ended S * World) :=
  if decide (size = QUERY_LIMIT_MAX) then
    match fuel with
    | O => None
    | Datatypes.S fuel' =>
        match db_ExecPagedQuery zeroQR queryStmt size offset w with
        | (Ok (qr, size'), w') =>
            match each_row (Results qr) 0 (Z.to_nat size') s with
            | Some s' =>
                forEach_loop fuel' queryStmt size' (wrap (offset + size'))
                             s' w'
            | None => Some (Faulted, w')
            end
        | (Fail _, w') => Some (Returned s, w')
        | (Panic, w') => Some (Faulted, w')
        end
    end
  else Some (Returned s, w).

(** [func ForEachTail(head *Node, r RelationVerb, cb func(n *Node))]. *)
Definition ForEachTail (fuel : nat) (head : Node) (r : RelationVerb)
    (s : S) (w : World) : option (ended S * World) :=
  forEach_loop fuel (tails_stmt head r false) QUERY_LIMIT_MAX 0 s w.

(** [func ForEachHead(tail *Node, r RelationVerb, cb func(n *Node))]. *)
Definition ForEachHead (fuel : nat) (tail : Node) (r : RelationVerb)
    (s : S) (w : World) : option (ended S * World) :=
  forEach_loop fuel (heads_stmt tail r false) QUERY_LIMIT_MAX 0 s w.

End ForEach.

(** ** Concurrent calls of [UpdateRelation]

    A call talks to the store twice, at [db.GetLock] and at
    [db.WriteUnlock]; each of the two is one atomic step of the store, and
    what lies between them works on the local copy [la] only. Two calls run
    concurrently when their steps interleave. *)
Inductive Call :=
  | Calling (tail head : Node) (es : list (RelationVerb * bool))
  | Holding (la : Arc) (lock : Lock)
  | Done (r : result unit).

(** A call that asks for a lock that is held waits, unless the store has a
    failure in stock, which ends the wait (the lock timeout of the
    contract). *)
Definition must_wait (k : string) (w : World) : bool :=
  bool_decide (is_Some (locks w !! k))
  && match faults w with
     | Some _ :: _ => false
     | _ => true
     end.

(** One step of a call; a waiting call leaves everything as it is. *)
Definition call_step (c : Call) (w : World) : Call * World :=
  match c with
  | Calling tail head es =>
      if must_wait (deriveKey tail head) w then (c, w)
      else
        match db_GetLock (probe tail head) w with
        | (Ok (la, lock), w') =>
            match update_locked la tail head es with
            | Some la' => (Holding la' lock, w')
            | None => (Done Panic, w')
            end
        | (Fail e, w') => (Done (Fail e), w')
        | (Panic, w') => (Done Panic, w')
        end
  | Holding la lock =>
      let '(r, w') := db_WriteUnlock la lock 0 w in (Done r, w')
  | Done r => (Done r, w)
  end.

(** Two calls under a schedule: [true] lets the first call take its next
    step, [false] the second. *)
Fixpoint interleave (sched : list bool) (c1 c2 : Call) (w : World)
  : Call * Call * World :=
  match sched with
  | [] => (c1, c2, w)
  | true :: sched' =>
      let '(c1', w') := call_step c1 w in interleave sched' c1' c2 w'
  | false :: sched' =>
      let '(c2', w') := call_step c2 w in interleave sched' c1 c2' w'
  end.

(** The two calls one after the other, in the order in which they
    acquire the lock: in a run in which both calls succeed the lock is
    free at the start, so the call that takes the first step of the
    schedule acquires the lock first. *)
Definition in_lock_order (sched : list bool) (u1 u2 : M unit) : M unit :=
  if hd true sched then bind u1 (λ _, u2) else bind u2 (λ _, u1).

(** The relation map stored under a key; the nil map when there is no
    document. *)
Definition stored_relation (k : string) (w : World) : Relation :=
  a ← doc_get k (docs w); ArcRelation a.

(** The entries of a delta as the merge reads them: [Some true] for a verb
    to set, [Some false] for a verb to remove, [None] for a verb the delta
    does not mention. *)
Definition merged (old : option bool) (d : option bool) : option bool :=
  match d with
  | Some true => Some true
  | Some false => None
  | None => old
  end.

(** ** Example worlds *)

Definition opts0 : Options := mkOptions 0.

(** The arc [user:1 → user:2] created at time 7 with an empty relation
    map, and with the entry [follow: false]. *)
Definition world_linked : World :=
  snd (CreateArc 7 user1 user2 (Some ∅) opts0 emptyWorld).

Definition world_unfollowed : World :=
  snd (CreateArc 7 user1 user2 (Some {[FOLLOW := false]}) opts0 emptyWorld).

(** Two followers of [user:2], stored in the order [carol], [alice]. *)
Definition user3 : Node := mkNode "user" "3" "carol" EmptyString.

Definition world_followed : World :=
  snd (CreateArc 8 user1 user2 (Some {[FOLLOW := true]}) opts0
         (snd (CreateArc 7 user3 user2 (Some {[FOLLOW := true]}) opts0
                         emptyWorld))).


(** A callback that notes the name of each node it is given. *)
Definition note_name (n : Node) (s : list string) : list string :=
  s ++ [Name n].

(** A second [CreateArc] on the same pair, at time 9. *)
Definition world_relinked : World :=
  snd (CreateArc 9 user1 user2 (Some ∅) opts0 world_linked).

(** [UpdateRelation] with [{v: true}] and then with [{v: false}]. *)
Definition set_then_unset (tail head : Node) (v : RelationVerb) : M unit :=
  bind (UpdateRelation tail head (Some {[v := true]}))
       (λ _, UpdateRelation tail head (Some {[v := false]})).

(** The world after a locked read of the key [k]. *)
Definition lock_taken (k : string) (w : World) : World :=
  mkWorld (docs w) (<[k := next_lock w]> (locks w)) (N.succ (next_lock w))
          (faults w) (queries w).

(** ** Rounds of the iteration *)

(** The callback applied to each node of a list in turn. *)
Definition visit {S : Type} (cb : Node → S → S) (s : S) (l : list Node) : S :=
  foldl (λ s n, cb n s) s l.

(** The store answers the next [j] calls: it has no failure in stock for
    them. *)
Definition answers (j : nat) (fs : list (option Err)) : Prop :=
  Forall (λ x, x = None) (take j fs).

(** The queries of [j] rounds of page size [limit], from round [i] on:
    round [t] asks for the page at offset [t * limit]. *)
Definition round_log (q : Stmt) (limit : Z) (i j : nat)
  : list (Stmt * Z * Z) :=
  (λ t : nat, (q, limit, Z.of_nat t * limit)) <$> seq i j.

(** The world after rounds [i, i+1, ...] of which [answered] were
    answered, [used] calls of the store in all. *)
Definition after_rounds (q : Stmt) (limit : Z) (i answered used : nat)
    (w : World) : World :=
  mkWorld (docs w) (locks w) (next_lock w) (drop used (faults w))
          (queries w ++ round_log q limit i answered).

(** The number of rounds that return a full page of [limit] rows out of
    [l]. *)
Definition full_rounds (limit : Z) (l : list Node) : nat :=
  (length l / Z.to_nat limit)%nat.


(** ** Node ids and degrees *)

(** Modelled from the spec: the [Counter] of a bucket is missing;
    [counterIncrement(counterKey, step, floor) → (value, error)] creates
    the counter at [floor] the first time and adds [step] to it afterwards.
    The value is a [uint64]; the value that comes with an error is taken
    to be zero. The counters and the outcomes the store has in stock for
    the coming calls are a state of their own. *)
Record Counters := mkCounters {
  values : gmap string N;
  counter_faults : list (option Err);
}.

Definition uint64 (n : N) : N := (n `mod` 2 ^ 64)%N.

Definition db_Counter (key : string) (delta initial : N) (ttl : Z)
    (c : Counters) : N * option Err * Counters :=
  match counter_faults c with
  | Some e :: fs => (0%N, Some e, mkCounters (values c) fs)
  | fs =>
      let v := match values c !! key with
               | None => uint64 initial
               | Some n => uint64 (n + delta)
               end in
      (v, None, mkCounters (<[key := v]> (values c)) (tail fs))
  end.

(** The value of the node counter; zero before the first allocation. *)
Definition counter_value (c : Counters) : N :=
  default 0%N (values c !! "id:node").

(** [func NewNodeId() (NodeId, error)]. *)
Definition NewNodeId (c : Counters) : NodeId * option Err * Counters :=
  let '(idNum, err, c') := db_Counter "id:node" 1 1 0 c in
  (pretty (uint64 idNum), err, c').

(** [n] calls of [NewNodeId] in a row, with what each returned. *)
Fixpoint allocate (n : nat) (c : Counters)
  : list (NodeId * option Err) * Counters :=
  match n with
  | O => ([], c)
  | Datatypes.S n' =>
      let '(id, err, c') := NewNodeId c in
      let '(rest, c'') := allocate n' c' in
      ((id, err) :: rest, c'')
  end.

(** Modelled from the spec: [db.ExecCount] is missing;
    [executeCountQuery(filterExpression) → (count, error)] counts the
    documents that pass the filter. The count statements of [Indegree] and
    [Outdegree] have the filter of the statements of [QueryTails] and
    [QueryHeads], no projection and no order; only the filter is read. *)
Definition db_ExecCount (queryStmt : Stmt) : M Z :=
  store_call (λ w, (Ok (Z.of_nat (length (scan queryStmt (docs w)))), w)).

(** [func Indegree(head *Node, r RelationVerb) (count int, err error)]. *)
Definition Indegree (head : Node) (r : RelationVerb) : M Z :=
  bind (db_ExecCount (tails_stmt head r false)) (λ count, ret count).

(** [func Outdegree(tail *Node, r RelationVerb) (count int, err error)]. *)
Definition Outdegree (tail : Node) (r : RelationVerb) : M Z :=
  bind (db_ExecCount (heads_stmt tail r false)) (λ count, ret count).

(** ** The bucket of arcs *)

(** Every document sits under its own key, has the type of arcs, and no
    key holds two documents. *)
Definition bucket_ok (ds : list (string * Arc)) : Prop :=
  NoDup ds.*1
  ∧ Forall (λ d, d.1 = MetaId (GetMeta d.2) ∧ ArcType d.2 = OBJ_ARC) ds.

(** [GetRowPtr] called for the indices [index], [index + 1], ..., [n]
    times over, as the store calls it for the rows of a page; [None] when
    a call returns nil. *)
Fixpoint ask_slots (qr : NodeQueryResult) (index n : nat)
  : option NodeQueryResult :=
  match n with
  | O => Some qr
  | Datatypes.S n' =>
      match GetRowPtr qr index with
      | (qr', Some _) => ask_slots qr' (Datatypes.S index) n'
      | (_, None) => None
      end
  end.

(** A world with the documents and the locks of [w]. *)
Definition unchanged (w w' : World) : Prop :=
  docs w' = docs w ∧ locks w' = locks w.

(** Two pairs of nodes whose kinds and ids differ and whose keys are the
    same. *)
Definition node_ab_c : Node := mkNode "a:b" "c" "ab" EmptyString.
Definition node_a_bc : Node := mkNode "a" "b:c" "a" EmptyString.

(** [user:1 → user:2] with [follow] set. *)
Definition world_following : World :=
  snd (CreateArc 7 user1 user2 (Some {[FOLLOW := true]}) opts0 emptyWorld).

(** ** Properties *)

(** *** The arc key *)

Section Key.

(** A separator that occurs in neither prefix splits a text in one way
    only. *)
Lemma split_at_separator (c : ascii) (s1 s2 r1 r2 : string) :
  occurs c s1 = false → occurs c s2 = false →
  s1 +:+ String c r1 = s2 +:+ String c r2 → s1 = s2 ∧ r1 = r2.
Proof.
  revert s2. induction s1 as [|d s1 IH]; intros [|d2 s2]; simpl.
  - intros _ _ E. by injection E.
  - destruct (decide (c = d2)) as [->|Hne]; [done|].
    intros _ _ E. injection E as E _. congruence.
  - destruct (decide (c = d)) as [->|Hne]; [done|].
    intros _ _ E. injection E as E _. congruence.
  - destruct (decide (c = d)); [done|]. destruct (decide (c = d2)); [done|].
    intros H1 H2 E. injection E as -> E.
    destruct (IH _ H1 H2 E) as [-> ->]. done.
Qed.

Lemma key_of_inj (tk ti hk hi tk' ti' hk' hi' : string) :
  occurs ":" tk = false → occurs ":" tk' = false →
  occurs ">" ti = false → occurs ">" ti' = false →
  occurs ":" hk = false → occurs ":" hk' = false →
  key_of tk ti hk hi = key_of tk' ti' hk' hi' →
  tk = tk' ∧ ti = ti' ∧ hk = hk' ∧ hi = hi'.
Proof.
  intros Htk Htk' Hti Hti' Hhk Hhk' E. unfold key_of in E. simpl in E.
  apply split_at_separator in E as [-> E]; [|done..].
  apply split_at_separator in E as [-> E]; [|done..].
  apply split_at_separator in E as [-> ->]; done.
Qed.

Lemma deriveKey_fields (A B : Node) :
  deriveKey A B = key_of (NodeType A) (Id A) (NodeType B) (Id B).
Proof. reflexivity. Qed.

Lemma probe_key (tail head : Node) :
  MetaId (GetMeta (probe tail head)) = deriveKey tail head.
Proof. reflexivity. Qed.

End Key.

(** C2 (as amended): the key is a function of the four fields
    [(tail.kind, tail.id, head.kind, head.id)] alone; over nodes whose kind
    holds no [':'] and whose id holds no ['>'] it is injective on those
    fields, and the keys of [(A, B)] and [(B, A)] differ whenever [A] and
    [B] differ in kind or id. *)
Theorem deriveKey_plain_injective (A B A' B' : Node) :
  plain_node A → plain_node B → plain_node A' → plain_node B' →
  deriveKey A B = key_of (NodeType A) (Id A) (NodeType B) (Id B)
  ∧ (deriveKey A B = deriveKey A' B' ↔
       (NodeType A, Id A, NodeType B, Id B)
       = (NodeType A', Id A', NodeType B', Id B'))
  ∧ ((NodeType A, Id A) ≠ (NodeType B, Id B) →
       deriveKey A B ≠ deriveKey B A).
Proof.
  intros [HA1 HA2] [HB1 HB2] [HA1' HA2'] [HB1' HB2'].
  split; [reflexivity|]. split; [split|].
  - rewrite !deriveKey_fields. intros E.
    apply key_of_inj in E as (-> & -> & -> & ->); done.
  - rewrite !deriveKey_fields. by intros [= -> -> -> ->].
  - rewrite !deriveKey_fields. intros Hne E.
    apply key_of_inj in E as (E1 & E2 & _ & _); [|done..].
    apply Hne. by rewrite E1, E2.
Qed.

Lemma deriveKey_plain_injective_witness :
  plain_node user1 ∧ plain_node user2
  ∧ deriveKey user1 user2 ≠ deriveKey user2 user1.
Proof.
  assert (P1 : plain_node user1) by (split; reflexivity).
  assert (P2 : plain_node user2) by (split; reflexivity).
  split; [exact P1|]. split; [exact P2|].
  apply (deriveKey_plain_injective user1 user2 user1 user2 P1 P2 P1 P2).
  discriminate.
Defined.

(** C2 (as stated) fails: the key is not injective on the four fields (a
    [':'] inside a kind moves the split), and two distinct nodes can give
    the same key in both directions: nodes that differ in name only, and
    nodes of distinct ids when an id holds the separators. *)
Lemma deriveKey_not_injective :
  (deriveKey (mkNode "a:b" "c" EmptyString EmptyString) user2
   = deriveKey (mkNode "a" "b:c" EmptyString EmptyString) user2
   ∧ ("a:b", "c") ≠ ("a", "b:c"))
  ∧ (user1 ≠ mkNode "user" "1" "bob" EmptyString
     ∧ deriveKey user1 (mkNode "user" "1" "bob" EmptyString)
       = deriveKey (mkNode "user" "1" "bob" EmptyString) user1)
  ∧ (Id (mkNode "x" "y>x:y" EmptyString EmptyString)
     ≠ Id (mkNode "x" "y" EmptyString EmptyString)
     ∧ deriveKey (mkNode "x" "y>x:y" EmptyString EmptyString)
                 (mkNode "x" "y" EmptyString EmptyString)
       = deriveKey (mkNode "x" "y" EmptyString EmptyString)
                   (mkNode "x" "y>x:y" EmptyString EmptyString)).
Proof. repeat split; (reflexivity || discriminate). Qed.

(** *** Relation maps and the merge *)

Section Merge.

Lemma rel_get_set (r r' : Relation) (k v : RelationVerb) (b : bool) :
  rel_set r k b = Some r' →
  rel_get r' v = if decide (k = v) then Some b else rel_get r v.
Proof.
  destruct r as [m|]; simpl; [|done]. intros [= <-]. simpl.
  apply lookup_insert.
Qed.

Lemma rel_get_delete (r : Relation) (k v : RelationVerb) :
  rel_get (rel_delete r k) v = if decide (k = v) then None else rel_get r v.
Proof.
  destruct r as [m|]; simpl.
  - apply lookup_delete.
  - by destruct (decide (k = v)).
Qed.

(** The merge loop over entries of distinct verbs: a visited verb ends set
    or absent as its entry says, the others keep their entry. *)
Lemma merge_lookup (es : list (RelationVerb * bool)) :
  ∀ (rel rel' : Relation), NoDup es.*1 → merge rel es = Some rel' →
    ∀ v : RelationVerb,
      (∀ b : bool, (v, b) ∈ es →
         rel_get rel' v = if b then Some true else None)
      ∧ (v ∉ es.*1 → rel_get rel' v = rel_get rel v).
Proof.
  induction es as [|[k b] es IH]; intros rel rel' Hnd Hm v.
  - injection Hm as <-. split; [intros b Hin; by apply elem_of_nil in Hin|done].
  - rewrite fmap_cons in Hnd. apply NoDup_cons in Hnd as [Hk Hnd].
    simpl in Hm. destruct b.
    + destruct (rel_set rel k true) as [rel1|] eqn:Hset; [|done].
      destruct (IH _ _ Hnd Hm v) as [IH1 IH2].
      destruct (IH _ _ Hnd Hm k) as [_ IHk]. split.
      * intros b [[= -> ->]|Hin]%elem_of_cons; [|by apply IH1].
        rewrite (IHk Hk), (rel_get_set _ _ _ _ _ Hset).
        by rewrite decide_True.
      * intros Hv. rewrite fmap_cons, not_elem_of_cons in Hv.
        destruct Hv as [Hne Hv]. simpl in Hne.
        rewrite (IH2 Hv), (rel_get_set _ _ _ _ _ Hset).
        by rewrite decide_False.
    + destruct (IH _ _ Hnd Hm v) as [IH1 IH2].
      destruct (IH _ _ Hnd Hm k) as [_ IHk]. split.
      * intros b [[= -> ->]|Hin]%elem_of_cons; [|by apply IH1].
        rewrite (IHk Hk), rel_get_delete. by rewrite decide_True.
      * intros Hv. rewrite fmap_cons, not_elem_of_cons in Hv.
        destruct Hv as [Hne Hv]. simpl in Hne.
        rewrite (IH2 Hv), rel_get_delete. by rewrite decide_False.
Qed.

(** Any order in which a range can visit a delta holds each verb once,
    with the value the delta gives it. *)
Lemma range_order (delta : Relation) (es : list (RelationVerb * bool)) :
  es ≡ₚ rel_entries delta →
  NoDup es.*1 ∧ ∀ v b, (v, b) ∈ es ↔ rel_get delta v = Some b.
Proof.
  intros Hp. split.
  - rewrite Hp. destruct delta as [m|]; simpl.
    + apply NoDup_fst_map_to_list.
    + constructor.
  - intros v b. rewrite Hp. destruct delta as [m|]; simpl.
    + apply elem_of_map_to_list.
    + split; [by intros ?%elem_of_nil|done].
Qed.

(** The merge of a delta, read verb by verb. *)
Lemma merge_delta (delta rel rel' : Relation)
    (es : list (RelationVerb * bool)) :
  es ≡ₚ rel_entries delta → merge rel es = Some rel' →
  ∀ v, rel_get rel' v = merged (rel_get rel v) (rel_get delta v).
Proof.
  intros Hp Hm v. destruct (range_order _ _ Hp) as [Hnd Hin].
  destruct (merge_lookup es rel rel' Hnd Hm v) as [H1 H2].
  destruct (rel_get delta v) as [b|] eqn:Hd.
  - rewrite (H1 b) by by apply Hin. by destruct b.
  - simpl. apply H2. intros [[v' b] [Hv Hvb]]%list_elem_of_fmap.
    simpl in Hv. subst v'. apply Hin in Hvb. congruence.
Qed.

(** A write to the nil map faults, wherever the range comes to it. *)
Lemma merge_nil_faults (es : list (RelationVerb * bool)) (v : RelationVerb) :
  (v, true) ∈ es → merge None es = None.
Proof.
  induction es as [|[k b] es IH]; [by intros ?%elem_of_nil|].
  intros [[= <- <-]|Hin]%elem_of_cons; simpl; [done|].
  destruct b; simpl; [done|]. by apply IH.
Qed.

End Merge.

(** *** The bucket *)

Section Bucket.

Lemma doc_get_put (k k' : string) (a : Arc) (ds : list (string * Arc)) :
  doc_get k' (doc_put k a ds)
  = if decide (k = k') then Some a else doc_get k' ds.
Proof.
  induction ds as [|[k0 a0] ds IH]; simpl.
  - destruct (decide (k' = k)), (decide (k = k')); congruence.
  - destruct (decide (k = k0)) as [->|Hne]; simpl.
    + destruct (decide (k' = k0)), (decide (k0 = k')); congruence.
    + rewrite IH. destruct (decide (k' = k0)), (decide (k = k')); congruence.
Qed.

Lemma doc_get_put_eq (k : string) (a : Arc) (ds : list (string * Arc)) :
  doc_get k (doc_put k a ds) = Some a.
Proof. rewrite doc_get_put. by rewrite decide_True. Qed.

Lemma doc_get_put_ne (k k' : string) (a : Arc) (ds : list (string * Arc)) :
  k ≠ k' → doc_get k' (doc_put k a ds) = doc_get k' ds.
Proof. intros. rewrite doc_get_put. by rewrite decide_False. Qed.

(** What a call of the store that succeeded has done: it ran its operation
    on the world, less the entry of the stock it used up. *)
Lemma store_call_Ok {A} (op : M A) (w w' : World) (x : A) :
  store_call op w = (Ok x, w') →
  ∃ fs, op (set_faults fs w) = (Ok x, w')
        ∧ (faults w = [] ∧ fs = [] ∨ faults w = None :: fs).
Proof.
  unfold store_call. destruct w as [ds ls nl fs qs]; simpl.
  destruct fs as [|[e|] fs]; intros H.
  - exists []. split; [done|by left].
  - done.
  - exists fs. split; [done|by right].
Qed.

End Bucket.

(** *** [UpdateRelation], step by step *)

Section Update.

(** A successful [UpdateRelation] has merged the delta into the arc the
    locked read yielded and has stored the result under the key. *)
Lemma UpdateRelation_in_Ok (es : list (RelationVerb * bool))
    (tail head : Node) (w w' : World) :
  UpdateRelation_in es tail head w = (Ok tt, w') →
  ∃ la', update_locked (locked_read tail head w) tail head es = Some la'
         ∧ docs w' = doc_put (deriveKey tail head) (SetType la') (docs w).
Proof.
  unfold UpdateRelation_in, bind.
  destruct (db_GetLock (probe tail head) w) as [[[la lock]| |] w1] eqn:Hlock;
    [|done..].
  unfold db_GetLock in Hlock. apply store_call_Ok in Hlock as (fs & Hop & _).
  rewrite probe_key in Hop. simpl in Hop.
  destruct (locks w !! deriveKey tail head); [done|].
  injection Hop as <- <- <-.
  fold (locked_read tail head w).
  destruct (update_locked (locked_read tail head w) tail head es)
    as [la'|] eqn:Hup; [|done].
  intros Hw. exists la'. split; [done|].
  unfold db_WriteUnlock in Hw. apply store_call_Ok in Hw as (fs' & Hop & _).
  assert (Hk : MetaId (GetMeta la') = deriveKey tail head).
  { unfold update_locked in Hup.
    destruct (merge _ es); [|done]. by injection Hup as <-. }
  cbv zeta in Hop. rewrite Hk in Hop.
  case_decide; [|done]. by injection Hop as <-.
Qed.

End Update.

Section UpdateFacts.

Lemma update_locked_fields (la la' : Arc) (tail head : Node)
    (es : list (RelationVerb * bool)) :
  update_locked la tail head es = Some la' →
  merge (ArcRelation la) es = Some (ArcRelation la')
  ∧ CreatedAt la' = CreatedAt la ∧ Tail la' = tail ∧ Head la' = head.
Proof.
  unfold update_locked. destruct (merge _ es); [|done].
  by intros [= <-].
Qed.

(** No call of [UpdateRelation] succeeds when the locked read yields the
    nil relation map and the delta sets a verb. *)
Lemma UpdateRelation_in_nil_fails (es : list (RelationVerb * bool))
    (tail head : Node) (w w' : World) (v : RelationVerb) :
  ArcRelation (locked_read tail head w) = None → (v, true) ∈ es →
  UpdateRelation_in es tail head w ≠ (Ok tt, w').
Proof.
  intros Hnil Hin Hok. apply UpdateRelation_in_Ok in Hok as (la' & Hup & _).
  apply update_locked_fields in Hup as [Hm _].
  rewrite Hnil, (merge_nil_faults es v Hin) in Hm. done.
Qed.

(** It faults once the store has granted the lock. *)
Lemma UpdateRelation_in_nil_panics (es : list (RelationVerb * bool))
    (tail head : Node) (w : World) (v : RelationVerb) :
  faults w = [] → locks w !! deriveKey tail head = None →
  ArcRelation (locked_read tail head w) = None → (v, true) ∈ es →
  UpdateRelation_in es tail head w
  = (Panic, lock_taken (deriveKey tail head) w).
Proof.
  intros Hf Hl Hnil Hin.
  unfold UpdateRelation_in, bind, db_GetLock, store_call. rewrite Hf.
  rewrite probe_key. cbv zeta. rewrite Hl.
  fold (locked_read tail head w). unfold update_locked.
  rewrite Hnil, (merge_nil_faults es v Hin).
  unfold panic, lock_taken. by rewrite Hf.
Qed.

Lemma locked_read_absent (tail head : Node) (w : World) :
  doc_get (deriveKey tail head) (docs w) = None →
  locked_read tail head w = probe tail head.
Proof. unfold locked_read. by intros ->. Qed.

Lemma locked_read_present (tail head : Node) (w : World) (a : Arc) :
  doc_get (deriveKey tail head) (docs w) = Some a →
  locked_read tail head w = a.
Proof. unfold locked_read. by intros ->. Qed.

(** A successful [CreateArc] has stored the new arc under the key. *)
Lemma CreateArc_Ok (now : Z) (tail head : Node) (r : Relation)
    (opts : Options) (w w' : World) :
  CreateArc now tail head r opts w = (Ok tt, w') →
  docs w' = doc_put (deriveKey tail head)
                    (mkArc OBJ_ARC tail head r opts now) (docs w).
Proof.
  unfold CreateArc, db_Upsert. intros (fs & Hop & _)%store_call_Ok.
  by injection Hop as <-.
Qed.

(** What [GetRelation] returns in a world where the store answers. *)
Lemma GetRelation_answer (tail head : Node) (w : World) :
  faults w = [] →
  fst (GetRelation tail head w)
  = match doc_get (deriveKey tail head) (docs w) with
    | Some a => Ok (ArcRelation a)
    | None => Fail ERR_NOT_FOUND
    end.
Proof.
  intros Hf. unfold GetRelation, bind, db_Get, store_call. rewrite Hf.
  rewrite probe_key. by destruct (doc_get _ _).
Qed.

(** The arc a successful [UpdateRelation] stores over an existing arc,
    read verb by verb. *)
Lemma UpdateRelation_in_stored (w w' : World) (tail head : Node)
    (delta : Relation) (es : list (RelationVerb * bool)) (a : Arc) :
  doc_get (deriveKey tail head) (docs w) = Some a →
  es ≡ₚ rel_entries delta →
  UpdateRelation_in es tail head w = (Ok tt, w') →
  ∃ a', doc_get (deriveKey tail head) (docs w') = Some a'
    ∧ ∀ v, rel_get (ArcRelation a') v
           = merged (rel_get (ArcRelation a) v) (rel_get delta v).
Proof.
  intros Ha Hp Hok. apply UpdateRelation_in_Ok in Hok as (la' & Hup & Hd).
  rewrite (locked_read_present _ _ _ _ Ha) in Hup.
  apply update_locked_fields in Hup as (Hm & _).
  exists (SetType la'). rewrite Hd, doc_get_put_eq. split; [done|].
  apply (merge_delta _ _ _ _ Hp Hm).
Qed.

End UpdateFacts.

(** C1 (as amended): a successful [UpdateRelation] on an existing arc, in
    whatever order the range visits the delta, stores a relation map in
    which every verb the delta maps to true is present with value true,
    every verb it maps to false is absent, and every verb it does not
    mention keeps the entry it had; so the merge brings in no false entry:
    when the arc held none before, the stored map holds none. *)
Theorem UpdateRelation_merges_delta (w w' : World) (tail head : Node)
    (delta : Relation) (es : list (RelationVerb * bool)) (a : Arc) :
  doc_get (deriveKey tail head) (docs w) = Some a →
  es ≡ₚ rel_entries delta →
  UpdateRelation_in es tail head w = (Ok tt, w') →
  ∃ a', doc_get (deriveKey tail head) (docs w') = Some a'
    ∧ (∀ v, rel_get delta v = Some true →
            rel_get (ArcRelation a') v = Some true)
    ∧ (∀ v, rel_get delta v = Some false →
            rel_get (ArcRelation a') v = None)
    ∧ (∀ v, rel_get delta v = None →
            rel_get (ArcRelation a') v = rel_get (ArcRelation a) v)
    ∧ ((∀ v, rel_get (ArcRelation a) v ≠ Some false) →
       ∀ v, rel_get (ArcRelation a') v ≠ Some false).
Proof.
  intros Ha Hp Hok.
  destruct (UpdateRelation_in_stored _ _ _ _ _ _ _ Ha Hp Hok)
    as (a' & Ha' & Hv).
  exists a'. split; [done|]. repeat split.
  - intros v Hdv. by rewrite Hv, Hdv.
  - intros v Hdv. by rewrite Hv, Hdv.
  - intros v Hdv. by rewrite Hv, Hdv.
  - intros Hold v. rewrite Hv.
    destruct (rel_get delta v) as [[|]|]; simpl; [done..|apply Hold].
Qed.

Lemma UpdateRelation_merges_delta_witness :
  ∃ a', doc_get (deriveKey user1 user2)
          (docs (snd (UpdateRelation user1 user2 (Some {[FOLLOW := true]})
                                     world_linked))) = Some a'
        ∧ rel_get (ArcRelation a') FOLLOW = Some true.
Proof.
  destruct (UpdateRelation_merges_delta world_linked
              (snd (UpdateRelation user1 user2 (Some {[FOLLOW := true]})
                                   world_linked))
              user1 user2 (Some {[FOLLOW := true]})
              (rel_entries (Some {[FOLLOW := true]}))
              (mkArc OBJ_ARC user1 user2 (Some ∅) opts0 7))
    as (a' & Ha' & Ht & _).
  - reflexivity.
  - reflexivity.
  - vm_compute. reflexivity.
  - exists a'. split; [exact Ha'|]. apply Ht. reflexivity.
Defined.

(** C1 (as stated) fails in its last part: a stored relation map can hold
    a false entry. [CreateArc] stores the map it is given, here
    [{follow: false}], and a later successful [UpdateRelation] with
    [{like: true}] stores it again with the false entry in place. *)
Lemma UpdateRelation_keeps_false_entry :
  fst (UpdateRelation user1 user2 (Some {[LIKE := true]}) world_unfollowed)
  = Ok tt
  ∧ (a ← doc_get (deriveKey user1 user2)
            (docs (snd (UpdateRelation user1 user2 (Some {[LIKE := true]})
                                       world_unfollowed)));
     rel_get (ArcRelation a) FOLLOW) = Some false.
Proof. split; vm_compute; reflexivity. Qed.

(** C3 (as amended): [CreateArc] stores the time of the call as
    [createdAt] on every call, also on a pair that has an arc already, whose
    [createdAt] it replaces; a successful [UpdateRelation] leaves the
    [createdAt] of an existing arc as it is. *)
Theorem CreatedAt_replaced_by_CreateArc_kept_by_UpdateRelation
    (w w1 w2 : World) (tail head : Node) (a : Arc) (now : Z)
    (r : Relation) (opts : Options) (es : list (RelationVerb * bool)) :
  doc_get (deriveKey tail head) (docs w) = Some a →
  CreateArc now tail head r opts w = (Ok tt, w1) →
  UpdateRelation_in es tail head w = (Ok tt, w2) →
  CreatedAt <$> doc_get (deriveKey tail head) (docs w1) = Some now
  ∧ CreatedAt <$> doc_get (deriveKey tail head) (docs w2)
    = Some (CreatedAt a).
Proof.
  intros Ha Hc Hu. split.
  - apply CreateArc_Ok in Hc. by rewrite Hc, doc_get_put_eq.
  - apply UpdateRelation_in_Ok in Hu as (la' & Hup & Hd).
    rewrite (locked_read_present _ _ _ _ Ha) in Hup.
    apply update_locked_fields in Hup as (_ & Hc' & _).
    rewrite Hd, doc_get_put_eq. simpl. by rewrite Hc'.
Qed.

Lemma CreatedAt_replaced_by_CreateArc_kept_by_UpdateRelation_witness :
  CreatedAt <$> doc_get (deriveKey user1 user2) (docs world_relinked)
  = Some 9
  ∧ CreatedAt <$> doc_get (deriveKey user1 user2)
      (docs (snd (UpdateRelation user1 user2 (Some {[FOLLOW := true]})
                                 world_linked)))
    = Some 7.
Proof.
  apply (CreatedAt_replaced_by_CreateArc_kept_by_UpdateRelation
           world_linked world_relinked
           (snd (UpdateRelation user1 user2 (Some {[FOLLOW := true]})
                                world_linked))
           user1 user2 (mkArc OBJ_ARC user1 user2 (Some ∅) opts0 7) 9
           (Some ∅) opts0 (rel_entries (Some {[FOLLOW := true]}))).
  - reflexivity.
  - reflexivity.
  - vm_compute. reflexivity.
Defined.

(** C3 (as stated) fails: a second [CreateArc] on the same pair changes
    [createdAt], here from 7 to 9. *)
Lemma CreateArc_overwrites_CreatedAt :
  CreatedAt <$> doc_get (deriveKey user1 user2) (docs world_linked) = Some 7
  ∧ fst (CreateArc 9 user1 user2 (Some ∅) opts0 world_linked) = Ok tt
  ∧ CreatedAt <$> doc_get (deriveKey user1 user2) (docs world_relinked)
    = Some 9.
Proof. repeat split. Qed.

Section NilMap.

Lemma entries_singleton (v : RelationVerb) (b : bool) :
  rel_entries (Some {[v := b]}) = [(v, b)].
Proof. apply map_to_list_singleton. Qed.

Lemma probe_relation_nil (tail head : Node) (w : World) :
  doc_get (deriveKey tail head) (docs w) = None →
  ArcRelation (locked_read tail head w) = None.
Proof. intros H. by rewrite (locked_read_absent _ _ _ H). Qed.

End NilMap.

(** C4: on a fresh pair, in a world where the store answers and the lock
    is free, [UpdateRelation] with [{v: true}] faults on the write to the
    nil relation map; the call with [{v: false}] is never reached and no
    arc is stored. *)
Theorem set_then_unset_fresh_pair_faults (w : World) (tail head : Node)
    (v : RelationVerb) :
  faults w = [] → locks w !! deriveKey tail head = None →
  doc_get (deriveKey tail head) (docs w) = None →
  fst (set_then_unset tail head v w) = Panic
  ∧ doc_get (deriveKey tail head) (docs (snd (set_then_unset tail head v w)))
    = None.
Proof.
  intros Hf Hl Hd. unfold set_then_unset, bind, UpdateRelation.
  rewrite entries_singleton.
  rewrite (UpdateRelation_in_nil_panics _ tail head w v Hf Hl
             (probe_relation_nil _ _ _ Hd)) by apply list_elem_of_here.
  split; [done|apply Hd].
Qed.

Lemma set_then_unset_fresh_pair_faults_witness :
  fst (set_then_unset user1 user2 FOLLOW emptyWorld) = Panic
  ∧ doc_get (deriveKey user1 user2)
      (docs (snd (set_then_unset user1 user2 FOLLOW emptyWorld))) = None.
Proof.
  apply (set_then_unset_fresh_pair_faults emptyWorld user1 user2 FOLLOW);
    reflexivity.
Defined.

(** C5: when the locked read yields an arc with the nil relation map, in a
    world where the store answers and the lock is free, [UpdateRelation]
    with a delta that maps a verb to true faults, in whatever order the
    range visits the delta, and stores nothing. *)
Theorem UpdateRelation_nil_map_faults (w : World) (tail head : Node)
    (delta : Relation) (es : list (RelationVerb * bool)) (v : RelationVerb) :
  faults w = [] → locks w !! deriveKey tail head = None →
  ArcRelation (locked_read tail head w) = None →
  rel_get delta v = Some true → es ≡ₚ rel_entries delta →
  fst (UpdateRelation_in es tail head w) = Panic
  ∧ docs (snd (UpdateRelation_in es tail head w)) = docs w.
Proof.
  intros Hf Hl Hnil Hv Hp.
  destruct (range_order _ _ Hp) as [_ Hin].
  rewrite (UpdateRelation_in_nil_panics es tail head w v Hf Hl Hnil)
    by by apply Hin.
  done.
Qed.

Lemma UpdateRelation_nil_map_faults_witness :
  fst (UpdateRelation user1 user2 (Some {[FOLLOW := true]}) emptyWorld)
  = Panic.
Proof.
  apply (UpdateRelation_nil_map_faults emptyWorld user1 user2
           (Some {[FOLLOW := true]}) (rel_entries (Some {[FOLLOW := true]}))
           FOLLOW); reflexivity.
Defined.

(** C9: on a state with no arc in either direction no call
    [UpdateRelation(A, B, {follow: true})] succeeds; where the store
    answers and the lock is free the call faults, and [GetRelation(A, B)]
    fails with [NotFound] afterwards as it did before. *)
Theorem follow_on_fresh_pair_never_succeeds (w : World) (A B : Node) :
  doc_get (deriveKey A B) (docs w) = None →
  doc_get (deriveKey B A) (docs w) = None →
  (∀ w', UpdateRelation A B (Some {[FOLLOW := true]}) w ≠ (Ok tt, w'))
  ∧ (faults w = [] → locks w !! deriveKey A B = None →
     fst (UpdateRelation A B (Some {[FOLLOW := true]}) w) = Panic
     ∧ fst (GetRelation A B
              (snd (UpdateRelation A B (Some {[FOLLOW := true]}) w)))
       = Fail ERR_NOT_FOUND).
Proof.
  intros HAB _. unfold UpdateRelation. rewrite entries_singleton. split.
  - intros w'. apply (UpdateRelation_in_nil_fails _ _ _ _ _ FOLLOW).
    + by apply probe_relation_nil.
    + apply list_elem_of_here.
  - intros Hf Hl.
    rewrite (UpdateRelation_in_nil_panics _ A B w FOLLOW Hf Hl
               (probe_relation_nil _ _ _ HAB)) by apply list_elem_of_here.
    split; [done|]. rewrite GetRelation_answer by done. simpl.
    by rewrite HAB.
Qed.

Lemma follow_on_fresh_pair_never_succeeds_witness :
  fst (UpdateRelation user1 user2 (Some {[FOLLOW := true]}) emptyWorld)
  = Panic
  ∧ fst (GetRelation user1 user2
           (snd (UpdateRelation user1 user2 (Some {[FOLLOW := true]})
                                emptyWorld)))
    = Fail ERR_NOT_FOUND.
Proof.
  apply (follow_on_fresh_pair_never_succeeds emptyWorld user1 user2);
    reflexivity.
Defined.

(** X14: directionality where the update can succeed: after a successful
    [UpdateRelation(A, B, {follow: true})] on an existing arc, in a world
    that has no document under the key of [(B, A)], a distinct key,
    [GetRelation(A, B)] returns a map with [follow] and [GetRelation(B, A)]
    fails with [NotFound]. *)
Lemma directionality_on_existing_arc (w w' : World) (A B : Node) (a : Arc) :
  doc_get (deriveKey A B) (docs w) = Some a →
  doc_get (deriveKey B A) (docs w) = None →
  deriveKey A B ≠ deriveKey B A →
  UpdateRelation A B (Some {[FOLLOW := true]}) w = (Ok tt, w') →
  faults w' = [] →
  (∃ r, fst (GetRelation A B w') = Ok r ∧ rel_get r FOLLOW = Some true)
  ∧ fst (GetRelation B A w') = Fail ERR_NOT_FOUND.
Proof.
  intros Ha Hb Hne Hok Hf. rewrite !GetRelation_answer by done.
  pose proof Hok as Hd. apply UpdateRelation_in_Ok in Hd as (la' & _ & Hd).
  destruct (UpdateRelation_in_stored w w' A B (Some {[FOLLOW := true]})
              (rel_entries (Some {[FOLLOW := true]})) a Ha
              (reflexivity _) Hok)
    as (a' & Ha' & Hv).
  split.
  - rewrite Ha'. exists (ArcRelation a'). split; [done|].
    rewrite Hv. simpl. by rewrite lookup_singleton_eq.
  - by rewrite Hd, doc_get_put_ne, Hb.
Qed.

(** *** Paged queries *)

Section Pages.






Lemma scan_length (q : Stmt) (ds : list (string * Arc)) :
  (length (scan q ds) ≤ length ds)%nat.
Proof.
  unfold scan. rewrite length_fmap.
  etrans; [apply List.filter_length_le|]. by rewrite length_fmap.
Qed.

Lemma rows_length (q : Stmt) (ds : list (string * Arc)) :
  length (rows q ds) = length (scan q ds).
Proof.
  unfold rows. destruct (OrderByName q); [|done].
  by rewrite merge_sort_Permutation.
Qed.



Lemma put_row_Results (qr : NodeQueryResult) (i : nat) (row : Node) :
  (i ≤ length (Results qr))%nat →
  Results (put_row qr i row)
  = take i (Results qr) ++ row :: drop (S i) (Results qr).
Proof.
  intros Hi. unfold put_row, GetRowPtr.
  destruct (decide (i < length (Results qr))%nat) as [Hlt|Hge]; simpl.
  - by apply insert_take_drop.
  - assert (i = length (Results qr)) as -> by lia.
    rewrite decide_True by done. simpl.
    rewrite <- (Nat.add_0_r (length (Results qr))) at 1.
    rewrite insert_app_r. simpl.
    rewrite take_ge, drop_ge by lia. done.
Qed.

Lemma put_rows_Results (rs : list Node) :
  ∀ (qr : NodeQueryResult) (i : nat), (i ≤ length (Results qr))%nat →
    Results (put_rows qr i rs)
    = take i (Results qr) ++ rs ++ drop (i + length rs) (Results qr).
Proof.
  induction rs as [|row rs IH]; intros qr i Hi; simpl.
  - by rewrite Nat.add_0_r, take_drop.
  - assert (Hlen : length (take i (Results qr) ++ [row]) = S i)
      by (rewrite length_app, length_take; simpl; lia).
    rewrite IH; rewrite put_row_Results by done.
    + rewrite (cons_middle row (take i (Results qr))),
        (assoc_L (++) (take i (Results qr))).
      rewrite take_app_length' by done.
      rewrite (drop_app_add' _ _ (S i)) by done.
      rewrite drop_drop, <- !(assoc_L (++)). simpl.
      by rewrite Nat.add_succ_r.
    + rewrite (cons_middle row), (assoc_L (++)), length_app, Hlen. lia.
Qed.

Lemma wrap_id (z : Z) : - max_int - 1 ≤ z ≤ max_int → wrap z = z.
Proof.
  unfold wrap, max_int. intros Hz.
  change (2 ^ 63) with 9223372036854775808 in *.
  change (2 ^ 64) with 18446744073709551616.
  rewrite Z.mod_small; lia.
Qed.

(** What a successful page query returns. *)
Lemma query_page_Ok (qr qr' : NodeQueryResult) (q : Stmt) (limit offset : Z)
    (size : Z) (w w' : World) :
  query_page qr q limit offset w = (Ok (qr', size), w') →
  Results qr' = page limit offset (rows q (docs w))
  ∧ size = Z.of_nat (length (Results qr'))
  ∧ PrevOffset qr' = fmt_d offset
  ∧ NextOffset qr' = fmt_d (wrap (offset + size))
  ∧ docs w' = docs w.
Proof.
  unfold query_page, bind.
  destruct (db_ExecPagedQuery qr q limit offset w) as [[[qr1 size1]| |] w1]
    eqn:Hq; [|done..].
  unfold db_ExecPagedQuery in Hq. apply store_call_Ok in Hq as (fs & Hop & _).
  simpl in Hop. injection Hop as <- <- <-.
  set (rs := page limit offset (rows q (docs w))).
  rewrite put_rows_Results by lia. simpl.
  unfold slice_to. rewrite decide_True
    by (rewrite length_app; lia).
  rewrite Nat2Z.id, take_app_length. unfold ret.
  intros [= <- <- <-]. simpl. done.
Qed.



End Pages.



(** *** Rounds of [ForEachTail] and [ForEachHead] *)

Section Rounds.
Context {S : Type}.
Variable MAX : Z.
Variable cb : Node → S → S.
Hypothesis MAX_int : 0 < MAX ≤ max_int.

Lemma take_add {A} (l : list A) (a b : nat) :
  take (a + b) l = take a l ++ take b (drop a l).
Proof.
  revert l. induction a as [|a IH]; intros [|x l]; simpl; try done.
  - by rewrite take_nil.
  - by rewrite IH.
Qed.

Lemma answers_S (j : nat) (fs : list (option Err)) :
  answers (Datatypes.S j) fs →
  answers 1 fs ∧ answers j (drop 1 fs).
Proof.
  unfold answers. destruct fs as [|x fs]; simpl.
  - intros _. split; [constructor|]. rewrite take_nil. constructor.
  - rewrite take_0, drop_0. intros [-> H]%Forall_cons. split; [|done].
    by repeat constructor.
Qed.

(** A call that the store answers runs its operation and uses up one
    entry of the stock. *)
Lemma store_call_answers {A} (op : M A) (w : World) :
  answers 1 (faults w) →
  store_call op w = op (set_faults (drop 1 (faults w)) w).
Proof.
  unfold store_call, answers. destruct w as [ds ls nl fs qs]. simpl.
  destruct fs as [|[e|] fs]; simpl; try done.
  by intros [[=] _]%Forall_cons.
Qed.

(** The inner loop calls the callback on each row of the page, in the
    order of the page. *)
Lemma each_row_app (rs done_ : list Node) :
  ∀ s, each_row cb (done_ ++ rs) (length done_) (length rs) s
       = Some (visit cb s rs).
Proof.
  revert done_. induction rs as [|row rs IH]; intros done_ s; [done|].
  simpl. rewrite list_lookup_middle by done.
  specialize (IH (done_ ++ [row]) (cb row s)).
  rewrite length_app, Nat.add_1_r, <- (assoc_L (++)) in IH. apply IH.
Qed.

Lemma each_row_all (rs : list Node) (s : S) :
  each_row cb rs 0 (length rs) s = Some (visit cb s rs).
Proof. apply (each_row_app rs []). Qed.

(** One answered query of a round. *)
Lemma round_query (q : Stmt) (offset : Z) (w : World) :
  answers 1 (faults w) →
  db_ExecPagedQuery zeroQR q MAX offset w
  = (Ok (mkNodeQueryResult (page MAX offset (rows q (docs w)))
                           EmptyString EmptyString,
         Z.of_nat (length (page MAX offset (rows q (docs w))))),
     mkWorld (docs w) (locks w) (next_lock w) (drop 1 (faults w))
             (queries w ++ [(q, MAX, offset)])).
Proof.
  intros Ha. unfold db_ExecPagedQuery. rewrite store_call_answers by done.
  simpl. repeat f_equal.
  set (rs := page _ _ _).
  assert (HR : Results (put_rows zeroQR 0 rs) = rs).
  { rewrite put_rows_Results by (simpl; lia). simpl.
    by rewrite drop_nil, app_nil_r. }
  assert (HN : ∀ rs qr i, NextOffset (put_rows qr i rs) = NextOffset qr
                          ∧ PrevOffset (put_rows qr i rs) = PrevOffset qr).
  { clear. induction rs as [|row rs IH]; intros qr i; [done|]. simpl.
    destruct (IH (put_row qr i row) (Datatypes.S i)) as [-> ->].
    unfold put_row, GetRowPtr. by repeat case_decide. }
  destruct (HN rs zeroQR 0%nat) as [Hn Hp].
  destruct (put_rows zeroQR 0 rs) as [R no po]. simpl in *. by subst.
Qed.

(** A round at offset [i * MAX] returns a full page when the rows reach
    that far. *)
Lemma full_page (l : list Node) (i : nat) :
  ((i + 1) * Z.to_nat MAX ≤ length l)%nat →
  page MAX (Z.of_nat i * MAX) l
  = take (Z.to_nat MAX) (drop (i * Z.to_nat MAX) l)
  ∧ Z.of_nat (length (page MAX (Z.of_nat i * MAX) l)) = MAX.
Proof.
  intros Hi. unfold page.
  replace (Z.to_nat (Z.of_nat i * MAX)) with (i * Z.to_nat MAX)%nat by lia.
  split; [done|]. rewrite length_take, length_drop. lia.
Qed.

Lemma short_page (l : list Node) (i : nat) :
  (i * Z.to_nat MAX ≤ length l < (i + 1) * Z.to_nat MAX)%nat →
  page MAX (Z.of_nat i * MAX) l = drop (i * Z.to_nat MAX) l
  ∧ Z.of_nat (length (page MAX (Z.of_nat i * MAX) l)) < MAX.
Proof.
  intros Hi. unfold page.
  replace (Z.to_nat (Z.of_nat i * MAX)) with (i * Z.to_nat MAX)%nat by lia.
  rewrite take_ge by (rewrite length_drop; lia).
  split; [done|]. rewrite length_drop. lia.
Qed.

Lemma after_rounds_0 (q : Stmt) (i : nat) (w : World) :
  after_rounds q MAX i 0 0 w = w.
Proof.
  destruct w. unfold after_rounds, round_log. simpl.
  by rewrite drop_0, app_nil_r.
Qed.

(** [j] answered rounds that each return a full page. *)
Lemma forEach_full_rounds (q : Stmt) (ds : list (string * Arc)) (j : nat) :
  ∀ (i fuel : nat) (s : S) (w : World),
    docs w = ds → Z.of_nat (length (rows q ds)) ≤ max_int →
    answers j (faults w) →
    ((i + j) * Z.to_nat MAX ≤ length (rows q ds))%nat →
    (j ≤ fuel)%nat →
    forEach_loop MAX cb fuel q MAX (Z.of_nat i * MAX) s w
    = forEach_loop MAX cb (fuel - j) q MAX (Z.of_nat (i + j) * MAX)
        (visit cb s (take (j * Z.to_nat MAX)
                          (drop (i * Z.to_nat MAX) (rows q ds))))
        (after_rounds q MAX i j j w).
Proof.
  induction j as [|j IH]; intros i fuel s w Hd Hn Ha Hij Hf.
  - rewrite Nat.add_0_r, Nat.sub_0_r, after_rounds_0. by simpl.
  - destruct fuel as [|fuel]; [lia|].
    apply answers_S in Ha as [Ha1 Ha].
    destruct (full_page (rows q ds) i) as [Hp Hl]; [lia|].
    simpl. rewrite decide_True by done.
    rewrite round_query by done. rewrite Hd. simpl.
    rewrite Nat2Z.id, each_row_all, Hl.
    rewrite wrap_id by (unfold max_int in *; nia).
    replace (Z.of_nat i * MAX + MAX) with (Z.of_nat (i + 1) * MAX) by lia.
    rewrite (IH (i + 1)%nat fuel); [|done|done|done|lia|lia].
    replace (i + 1 + j)%nat with (i + Datatypes.S j)%nat by lia.
    f_equal.
    + rewrite Hp. unfold visit. rewrite <- foldl_app. f_equal.
      rewrite (take_add _ (Z.to_nat MAX) (j * Z.to_nat MAX)), drop_drop.
      by rewrite Nat.mul_add_distr_r, Nat.mul_1_l.
    + unfold after_rounds, round_log. simpl.
      rewrite drop_drop, <- (assoc_L (++)).
      repeat f_equal; (done || lia).
Qed.

Lemma answers_add (a b : nat) (fs : list (option Err)) :
  answers (a + b) fs → answers a fs ∧ answers b (drop a fs).
Proof. unfold answers. rewrite take_add. apply Forall_app. Qed.

Lemma forEach_loop_stop (fuel : nat) (q : Stmt) (size offset : Z) (s : S)
    (w : World) :
  size ≠ MAX →
  forEach_loop MAX cb fuel q size offset s w = Some (Returned s, w).
Proof. intros Hne. destruct fuel; simpl; by rewrite decide_False. Qed.


Lemma round_log_snoc (q : Stmt) (j : nat) :
  round_log q MAX 0 j ++ [(q, MAX, Z.of_nat j * MAX)]
  = round_log q MAX 0 (Datatypes.S j).
Proof. unfold round_log. by rewrite seq_S, fmap_app. Qed.

Lemma full_rounds_bounds (l : list Node) :
  (full_rounds MAX l * Z.to_nat MAX ≤ length l
   < (full_rounds MAX l + 1) * Z.to_nat MAX)%nat.
Proof.
  unfold full_rounds. assert (Z.to_nat MAX ≠ 0)%nat by lia.
  pose proof (Nat.div_mod_eq (length l) (Z.to_nat MAX)).
  pose proof (Nat.mod_upper_bound (length l) (Z.to_nat MAX)). nia.
Qed.

(** The iteration over a store that answers: every row is visited once, in
    the order of the rows, in [full_rounds + 1] rounds. *)
Lemma forEach_exhausts (q : Stmt) (fuel : nat) (s : S) (w : World) :
  Z.of_nat (length (rows q (docs w))) ≤ max_int →
  answers (Datatypes.S (full_rounds MAX (rows q (docs w)))) (faults w) →
  (full_rounds MAX (rows q (docs w)) < fuel)%nat →
  forEach_loop MAX cb fuel q MAX 0 s w
  = Some (Returned (visit cb s (rows q (docs w))),
          after_rounds q MAX 0
            (Datatypes.S (full_rounds MAX (rows q (docs w))))
            (Datatypes.S (full_rounds MAX (rows q (docs w)))) w).
Proof.
  set (l := rows q (docs w)). set (j := full_rounds MAX l).
  intros Hn Ha Hf. pose proof (full_rounds_bounds l) as Hj. fold j in Hj.
  rewrite <- Nat.add_1_r in Ha. apply answers_add in Ha as [Haj Ha1].
  change 0 with (Z.of_nat 0 * MAX).
  rewrite (forEach_full_rounds q (docs w) j 0 fuel s w);
    [|done|done|done|fold l; simpl; lia|lia].
  fold l. simpl. rewrite drop_0.
  destruct (fuel - j)%nat as [|fuel'] eqn:Hfuel; [lia|].
  destruct (short_page l j) as [Hp Hl]; [lia|].
  simpl. rewrite decide_True by done.
  rewrite round_query by done. simpl. fold l.
  rewrite Nat2Z.id, each_row_all, forEach_loop_stop by lia.
  f_equal. f_equal.
  - rewrite Hp. unfold visit. by rewrite <- foldl_app, take_drop.
  - unfold after_rounds. simpl.
    rewrite drop_drop, <- (assoc_L (++)), round_log_snoc.
    by rewrite Nat.add_1_r.
Qed.



End Rounds.

Section Iteration.
Context {S : Type}.
Variable MAX : Z.
Variable cb : Node → S → S.
Hypothesis MAX_int : 0 < MAX ≤ max_int.

Lemma rows_unordered (q : Stmt) (ds : list (string * Arc)) :
  OrderByName q = false → rows q ds = scan q ds.
Proof. unfold rows. by intros ->. Qed.

Lemma scan_fits (q : Stmt) (ds : list (string * Arc)) :
  Z.of_nat (length ds) ≤ max_int → Z.of_nat (length (scan q ds)) ≤ max_int.
Proof. pose proof (scan_length q ds). lia. Qed.

Lemma no_failure_answers (j : nat) (fs : list (option Err)) :
  Forall (λ x, x = None) fs → answers j fs.
Proof. apply Forall_take. Qed.


(** The iteration of an unordered statement over a store that has no
    failure in stock. *)
Lemma iteration_exhausts (q : Stmt) (fuel : nat) (s : S) (w : World) :
  OrderByName q = false →
  Z.of_nat (length (docs w)) ≤ max_int →
  Forall (λ x, x = None) (faults w) →
  (full_rounds MAX (scan q (docs w)) < fuel)%nat →
  forEach_loop MAX cb fuel q MAX 0 s w
  = Some (Returned (visit cb s (scan q (docs w))),
          after_rounds q MAX 0
            (Datatypes.S (full_rounds MAX (scan q (docs w))))
            (Datatypes.S (full_rounds MAX (scan q (docs w)))) w).
Proof.
  intros Ho Hw Hf Hfuel. rewrite <- !(rows_unordered q (docs w) Ho) in *.
  apply (forEach_exhausts MAX cb MAX_int); [|by apply no_failure_answers|done].
  rewrite rows_unordered by done. by apply scan_fits.
Qed.


End Iteration.






(** *** Two concurrent calls of [UpdateRelation] *)

Section Serial.

Lemma GetLock_Ok (a la : Arc) (lock : N) (w w1 : World) :
  db_GetLock a w = (Ok (la, lock), w1) →
  locks w !! MetaId (GetMeta a) = None
  ∧ la = default a (doc_get (MetaId (GetMeta a)) (docs w))
  ∧ docs w1 = docs w
  ∧ locks w1 !! MetaId (GetMeta a) = Some lock.
Proof.
  unfold db_GetLock. intros (fs & Hop & _)%store_call_Ok. simpl in Hop.
  destruct (locks w !! _) eqn:Hl; [done|]. injection Hop as <- <- <-.
  simpl. by rewrite lookup_insert_eq.
Qed.

(** The store turns away a call that asks for a lock that is held. *)
Lemma GetLock_held (a : Arc) (lk : N) (w w1 : World) (x : Arc * N) :
  locks w !! MetaId (GetMeta a) = Some lk → db_GetLock a w ≠ (Ok x, w1).
Proof.
  intros Hl Hok. destruct x as [la lock].
  apply GetLock_Ok in Hok as [Hnone _]. congruence.
Qed.

Lemma WriteUnlock_Ok (a : Arc) (lock : N) (ttl : Z) (w w1 : World) :
  db_WriteUnlock a lock ttl w = (Ok tt, w1) →
  docs w1 = doc_put (MetaId (GetMeta a)) (SetType a) (docs w).
Proof.
  unfold db_WriteUnlock. intros (fs & Hop & _)%store_call_Ok. simpl in Hop.
  case_decide; [|done]. by injection Hop as <-.
Qed.

Lemma update_locked_key (la la' : Arc) (tail head : Node)
    (es : list (RelationVerb * bool)) :
  update_locked la tail head es = Some la' →
  MetaId (GetMeta la') = deriveKey tail head.
Proof.
  intros (_ & _ & Ht & Hh)%update_locked_fields.
  unfold GetMeta, deriveKey. simpl. by rewrite Ht, Hh.
Qed.

Lemma must_wait_held (k : string) (w : World) :
  must_wait k w = true → is_Some (locks w !! k).
Proof.
  unfold must_wait. intros [H _]%andb_prop. by apply bool_decide_eq_true in H.
Qed.

Lemma must_wait_free (k : string) (w : World) :
  locks w !! k = None → must_wait k w = false.
Proof.
  unfold must_wait. intros ->. rewrite bool_decide_eq_false_2; [done|].
  by intros [x [=]].
Qed.

(** A call that does not have to wait, scheduled for its two steps in a
    row, is [UpdateRelation] run on its own. *)
Lemma call_steps_alone (es : list (RelationVerb * bool)) (tail head : Node)
    (w : World) :
  must_wait (deriveKey tail head) w = false →
  (let '(c, w1) := call_step (Calling tail head es) w in call_step c w1)
  = (Done (UpdateRelation_in es tail head w).1,
     (UpdateRelation_in es tail head w).2).
Proof.
  intros Hw. unfold UpdateRelation_in, bind. simpl. rewrite Hw.
  destruct (db_GetLock (probe tail head) w) as [[[la lock]|e|] w1]; simpl;
    [|done..].
  destruct (update_locked la tail head es) as [la'|]; simpl; [|done].
  by destruct (db_WriteUnlock la' lock 0 w1).
Qed.

(** A call that has ended stays as it is, and so does the world when both
    have ended. *)
Lemma interleave_done_l (sched : list bool) :
  ∀ r c2 w c1' c2' w',
    interleave sched (Done r) c2 w = (c1', c2', w') → c1' = Done r.
Proof.
  induction sched as [|[|] sched IH]; intros r c2 w c1' c2' w'; simpl.
  - by intros [= <- _ _].
  - apply IH.
  - destruct (call_step c2 w) as [c2'' w'']. apply IH.
Qed.

Lemma interleave_done_r (sched : list bool) :
  ∀ r c1 w c1' c2' w',
    interleave sched c1 (Done r) w = (c1', c2', w') → c2' = Done r.
Proof.
  induction sched as [|[|] sched IH]; intros r c1 w c1' c2' w'; simpl.
  - by intros [= _ <- _].
  - destruct (call_step c1 w) as [c1'' w'']. apply IH.
  - apply IH.
Qed.

Lemma interleave_done (sched : list bool) :
  ∀ r1 r2 w c1' c2' w',
    interleave sched (Done r1) (Done r2) w = (c1', c2', w') → w' = w.
Proof.
  induction sched as [|[|] sched IH]; intros r1 r2 w c1' c2' w'; simpl.
  - by intros [= _ _ <-].
  - apply IH.
  - apply IH.
Qed.

(** The other call leads: the same run with the roles exchanged. *)
Lemma interleave_swap (sched : list bool) :
  ∀ c1 c2 w c1' c2' w',
    interleave sched c1 c2 w = (c1', c2', w') →
    interleave (negb <$> sched) c2 c1 w = (c2', c1', w').
Proof.
  induction sched as [|[|] sched IH]; intros c1 c2 w c1' c2' w'; simpl.
  - by intros [= <- <- <-].
  - destruct (call_step c1 w) as [c1'' w'']. apply IH.
  - destruct (call_step c2 w) as [c2'' w'']. apply IH.
Qed.

(** The first call has ended well, the second holds the lock. *)
Lemma second_writes (la : Arc) (lk : N) (sched : list bool) :
  ∀ w w',
    interleave sched (Done (Ok tt)) (Holding la lk) w
    = (Done (Ok tt), Done (Ok tt), w') →
    docs w' = doc_put (MetaId (GetMeta la)) (SetType la) (docs w).
Proof.
  induction sched as [|[|] sched IH]; intros w w'; simpl.
  - done.
  - apply IH.
  - destruct (db_WriteUnlock la lk 0 w) as [r w1] eqn:Hw. intros Hrun.
    pose proof (interleave_done_r _ _ _ _ _ _ _ Hrun) as [= <-].
    apply interleave_done in Hrun as ->. by apply WriteUnlock_Ok in Hw.
Qed.

(** The first call has ended well, the second has yet to start: it runs
    as a call on its own. *)
Lemma second_runs_alone (tail head : Node) (es : list (RelationVerb * bool))
    (sched : list bool) :
  ∀ w w',
    interleave sched (Done (Ok tt)) (Calling tail head es) w
    = (Done (Ok tt), Done (Ok tt), w') →
    ∃ la', update_locked (locked_read tail head w) tail head es = Some la'
           ∧ docs w' = doc_put (deriveKey tail head) (SetType la') (docs w).
Proof.
  induction sched as [|[|] sched IH]; intros w w'; simpl.
  - done.
  - apply IH.
  - destruct (must_wait (deriveKey tail head) w); [apply IH|].
    destruct (db_GetLock (probe tail head) w) as [[[la lock]|e|] w1] eqn:Hl.
    + apply GetLock_Ok in Hl as (_ & -> & Hd & _). rewrite probe_key.
      fold (locked_read tail head w).
      destruct (update_locked (locked_read tail head w) tail head es)
        as [la'|] eqn:Hup.
      * intros Hrun%second_writes. exists la'. split; [done|].
        by rewrite Hrun, Hd, (update_locked_key _ _ _ _ _ Hup).
      * by intros [=]%interleave_done_r.
    + by intros [=]%interleave_done_r.
    + by intros [=]%interleave_done_r.
Qed.

(** The first call holds the lock, the second has yet to start: the
    second cannot get the lock before the first has written. *)
Lemma first_writes_first (la1 : Arc) (lk : N) (tail head : Node)
    (es : list (RelationVerb * bool)) (sched : list bool) :
  MetaId (GetMeta la1) = deriveKey tail head →
  ∀ w w',
    locks w !! deriveKey tail head = Some lk →
    interleave sched (Holding la1 lk) (Calling tail head es) w
    = (Done (Ok tt), Done (Ok tt), w') →
    ∃ la2, update_locked (SetType la1) tail head es = Some la2
           ∧ docs w' = doc_put (deriveKey tail head) (SetType la2)
                         (doc_put (deriveKey tail head) (SetType la1)
                                  (docs w)).
Proof.
  intros Hk. induction sched as [|[|] sched IH]; intros w w' Hheld; simpl.
  - done.
  - destruct (db_WriteUnlock la1 lk 0 w) as [r w1] eqn:Hw. intros Hrun.
    pose proof (interleave_done_l _ _ _ _ _ _ _ Hrun) as [= <-].
    apply WriteUnlock_Ok in Hw. rewrite Hk in Hw.
    apply second_runs_alone in Hrun as (la2 & Hup & Hd).
    exists la2. unfold locked_read in Hup.
    rewrite Hw, doc_get_put_eq in Hup. simpl in Hup.
    split; [done|]. by rewrite Hd, Hw.
  - destruct (must_wait (deriveKey tail head) w); [by apply IH|].
    destruct (db_GetLock (probe tail head) w) as [[x|e|] w1] eqn:Hl.
    + exfalso. by apply (GetLock_held _ lk) in Hl.
    + by intros [=]%interleave_done_r.
    + by intros [=]%interleave_done_r.
Qed.

(** While the lock is held by neither call, neither call gets anywhere. *)
Lemma both_wait (t1 h1 t2 h2 : Node) (es1 es2 : list (RelationVerb * bool))
    (lk : N) (sched : list bool) :
  ∀ w w',
    locks w !! deriveKey t1 h1 = Some lk →
    locks w !! deriveKey t2 h2 = Some lk →
    interleave sched (Calling t1 h1 es1) (Calling t2 h2 es2) w
    ≠ (Done (Ok tt), Done (Ok tt), w').
Proof.
  induction sched as [|[|] sched IH]; intros w w' H1 H2; simpl.
  - done.
  - destruct (must_wait (deriveKey t1 h1) w); [by apply IH|].
    destruct (db_GetLock (probe t1 h1) w) as [[x|e|] w1] eqn:Hl.
    + exfalso. by apply (GetLock_held _ lk) in Hl.
    + by intros [=]%interleave_done_l.
    + by intros [=]%interleave_done_l.
  - destruct (must_wait (deriveKey t2 h2) w); [by apply IH|].
    destruct (db_GetLock (probe t2 h2) w) as [[x|e|] w1] eqn:Hl.
    + exfalso. by apply (GetLock_held _ lk) in Hl.
    + by intros [=]%interleave_done_r.
    + by intros [=]%interleave_done_r.
Qed.

(** Both calls have yet to start, and the first call takes the first
    step. *)
Lemma first_leads (t1 h1 t2 h2 : Node) (es1 es2 : list (RelationVerb * bool))
    (sched : list bool) (w w' : World) :
  deriveKey t1 h1 = deriveKey t2 h2 →
  interleave (true :: sched) (Calling t1 h1 es1) (Calling t2 h2 es2) w
  = (Done (Ok tt), Done (Ok tt), w') →
  locks w !! deriveKey t1 h1 = None
  ∧ ∃ la1 la2,
      update_locked (locked_read t1 h1 w) t1 h1 es1 = Some la1
      ∧ update_locked (SetType la1) t2 h2 es2 = Some la2
      ∧ docs w' = doc_put (deriveKey t1 h1) (SetType la2)
                    (doc_put (deriveKey t1 h1) (SetType la1) (docs w)).
Proof.
  intros Hk. simpl.
  destruct (must_wait (deriveKey t1 h1) w) eqn:Hwait.
  { apply must_wait_held in Hwait as [lk Hlk]. intros Hrun.
    exfalso. revert Hrun. apply (both_wait _ _ _ _ _ _ lk); [done|].
    by rewrite <- Hk. }
  destruct (db_GetLock (probe t1 h1) w) as [[[la lock]|e|] w1] eqn:Hl.
  - apply GetLock_Ok in Hl as (Hfree & -> & Hd & Hheld).
    rewrite probe_key in *. fold (locked_read t1 h1 w).
    destruct (update_locked (locked_read t1 h1 w) t1 h1 es1)
      as [la1|] eqn:Hup.
    + intros Hrun. split; [done|].
      apply first_writes_first in Hrun as (la2 & Hup2 & Hd2).
      * exists la1, la2. by rewrite Hk, Hd2, Hd.
      * by rewrite (update_locked_key _ _ _ _ _ Hup).
      * by rewrite <- Hk.
    + by intros [=]%interleave_done_l.
  - by intros [=]%interleave_done_l.
  - by intros [=]%interleave_done_l.
Qed.

(** A call on its own in a world where the store answers and the lock is
    free. *)
Lemma UpdateRelation_in_alone (es : list (RelationVerb * bool))
    (tail head : Node) (la' : Arc) (w : World) :
  faults w = [] → locks w !! deriveKey tail head = None →
  update_locked (locked_read tail head w) tail head es = Some la' →
  UpdateRelation_in es tail head w
  = (Ok tt,
     mkWorld (doc_put (deriveKey tail head) (SetType la') (docs w))
             (locks w) (N.succ (next_lock w)) [] (queries w)).
Proof.
  intros Hf Hl Hup.
  unfold UpdateRelation_in, bind, db_GetLock, store_call. rewrite Hf.
  rewrite probe_key. cbv zeta. rewrite Hl.
  fold (locked_read tail head w). rewrite Hup.
  unfold db_WriteUnlock, store_call. cbn [faults]. cbv zeta.
  rewrite (update_locked_key _ _ _ _ _ Hup). cbn [locks docs next_lock queries].
  rewrite lookup_insert_eq, decide_True by done.
  by rewrite delete_insert_id.
Qed.

(** The two calls one after the other. *)
Lemma one_after_other (t1 h1 t2 h2 : Node)
    (es1 es2 : list (RelationVerb * bool)) (la1 la2 : Arc) (w : World) :
  deriveKey t1 h1 = deriveKey t2 h2 →
  locks w !! deriveKey t1 h1 = None →
  update_locked (locked_read t1 h1 w) t1 h1 es1 = Some la1 →
  update_locked (SetType la1) t2 h2 es2 = Some la2 →
  ∃ ws,
    bind (UpdateRelation_in es1 t1 h1) (λ _, UpdateRelation_in es2 t2 h2)
         (set_faults [] w) = (Ok tt, ws)
    ∧ docs ws = doc_put (deriveKey t1 h1) (SetType la2)
                  (doc_put (deriveKey t1 h1) (SetType la1) (docs w)).
Proof.
  intros Hk Hl Hup1 Hup2. unfold bind.
  rewrite (UpdateRelation_in_alone es1 t1 h1 la1) by done.
  rewrite (UpdateRelation_in_alone es2 t2 h2 la2).
  - eexists. split; [done|]. simpl. by rewrite Hk.
  - done.
  - simpl. by rewrite <- Hk.
  - unfold locked_read. simpl. by rewrite <- Hk, doc_get_put_eq.
Qed.

Lemma locked_read_relation (tail head : Node) (w : World) :
  ArcRelation (locked_read tail head w)
  = stored_relation (deriveKey tail head) w.
Proof.
  unfold locked_read, stored_relation. by destruct (doc_get _ _).
Qed.

(** The relation map after two merges, read verb by verb. *)
Lemma two_merges (t1 h1 t2 h2 : Node) (d1 d2 : Relation)
    (es1 es2 : list (RelationVerb * bool)) (la0 la1 la2 : Arc)
    (v : RelationVerb) :
  es1 ≡ₚ rel_entries d1 → es2 ≡ₚ rel_entries d2 →
  update_locked la0 t1 h1 es1 = Some la1 →
  update_locked (SetType la1) t2 h2 es2 = Some la2 →
  rel_get (ArcRelation (SetType la2)) v
  = merged (merged (rel_get (ArcRelation la0) v) (rel_get d1 v))
           (rel_get d2 v).
Proof.
  intros Hp1 Hp2 (Hm1 & _)%update_locked_fields
         (Hm2 & _)%update_locked_fields.
  simpl in *. rewrite (merge_delta _ _ _ _ Hp2 Hm2).
  by rewrite (merge_delta _ _ _ _ Hp1 Hm1).
Qed.

End Serial.

Section NoLostUpdate.

(** A run in which both calls succeed and the first call takes the first
    step. *)
Lemma leader_first (t1 h1 t2 h2 : Node) (d1 d2 : Relation)
    (es1 es2 : list (RelationVerb * bool)) (sched : list bool)
    (w w' : World) :
  deriveKey t1 h1 = deriveKey t2 h2 →
  es1 ≡ₚ rel_entries d1 → es2 ≡ₚ rel_entries d2 →
  interleave (true :: sched) (Calling t1 h1 es1) (Calling t2 h2 es2) w
  = (Done (Ok tt), Done (Ok tt), w') →
  (∃ ws,
     bind (UpdateRelation_in es1 t1 h1) (λ _, UpdateRelation_in es2 t2 h2)
          (set_faults [] w) = (Ok tt, ws)
     ∧ docs ws = docs w')
  ∧ ∀ v, rel_get (stored_relation (deriveKey t1 h1) w') v
         = merged (merged (rel_get (stored_relation (deriveKey t1 h1) w) v)
                          (rel_get d1 v))
                  (rel_get d2 v).
Proof.
  intros Hk Hp1 Hp2 Hrun.
  apply first_leads in Hrun as (Hfree & la1 & la2 & Hup1 & Hup2 & Hd);
    [|done].
  split.
  - destruct (one_after_other t1 h1 t2 h2 es1 es2 la1 la2 w Hk Hfree Hup1 Hup2)
      as (ws & Hrun & Hws).
    exists ws. split; [done|]. by rewrite Hws, Hd.
  - intros v. rewrite <- (locked_read_relation t1 h1 w).
    rewrite <- (two_merges t1 h1 t2 h2 d1 d2 es1 es2 _ la1 la2 v Hp1 Hp2
                  Hup1 Hup2).
    unfold stored_relation. by rewrite Hd, doc_get_put_eq.
Qed.

(** Two merges of deltas that share no verb, read verb by verb. *)
Lemma merged_disjoint (old x y : option bool) :
  x = None ∨ y = None →
  merged (merged old x) y = merged (merged old y) x
  ∧ (x = Some true ∨ y = Some true → merged (merged old x) y = Some true)
  ∧ (x = Some false ∨ y = Some false → merged (merged old x) y = None)
  ∧ (x = None → y = None → merged (merged old x) y = old).
Proof.
  destruct x as [[|]|], y as [[|]|]; simpl; intros [?|?]; try done;
    repeat split; try done; intros [?|?]; done.
Qed.

End NoLostUpdate.

(** C10: two concurrent calls of [UpdateRelation] on the same pair with
    deltas that share no verb, both of which succeed, have run one after
    the other under the lock of the arc: the documents of the bucket are
    those that the two calls leave when run in sequence in the order in
    which they acquired the lock, and the stored relation map holds every
    verb that either delta maps to true, holds no verb that either delta
    maps to false, and keeps the entry of every other verb. *)
Theorem concurrent_updates_serialize (w w' : World) (sched : list bool)
    (t1 h1 t2 h2 : Node) (d1 d2 : Relation)
    (es1 es2 : list (RelationVerb * bool)) :
  deriveKey t1 h1 = deriveKey t2 h2 →
  es1 ≡ₚ rel_entries d1 → es2 ≡ₚ rel_entries d2 →
  (∀ v, rel_get d1 v = None ∨ rel_get d2 v = None) →
  interleave sched (Calling t1 h1 es1) (Calling t2 h2 es2) w
  = (Done (Ok tt), Done (Ok tt), w') →
  (∃ ws,
     in_lock_order sched (UpdateRelation_in es1 t1 h1)
                   (UpdateRelation_in es2 t2 h2) (set_faults [] w)
     = (Ok tt, ws)
     ∧ docs ws = docs w')
  ∧ (∀ v, rel_get d1 v = Some true ∨ rel_get d2 v = Some true →
          rel_get (stored_relation (deriveKey t1 h1) w') v = Some true)
  ∧ (∀ v, rel_get d1 v = Some false ∨ rel_get d2 v = Some false →
          rel_get (stored_relation (deriveKey t1 h1) w') v = None)
  ∧ (∀ v, rel_get d1 v = None → rel_get d2 v = None →
          rel_get (stored_relation (deriveKey t1 h1) w') v
          = rel_get (stored_relation (deriveKey t1 h1) w) v).
Proof.
  intros Hk Hp1 Hp2 Hdis Hrun. destruct sched as [|[|] sched]; [done|..].
  - destruct (leader_first t1 h1 t2 h2 d1 d2 es1 es2 sched w w' Hk Hp1 Hp2
                Hrun) as [Hseq Hv].
    split; [done|].
    repeat split; intros v; rewrite Hv;
      apply (merged_disjoint _ _ _ (Hdis v)).
  - apply interleave_swap in Hrun. rewrite fmap_cons in Hrun. simpl in Hrun.
    destruct (leader_first t2 h2 t1 h1 d2 d1 es2 es1 (negb <$> sched) w w'
                (eq_sym Hk) Hp2 Hp1 Hrun) as [Hseq Hv].
    split; [done|]. rewrite Hk.
    repeat split; intros v; rewrite Hv;
      destruct (merged_disjoint (rel_get (stored_relation (deriveKey t2 h2) w) v)
                  _ _ (Hdis v)) as (<- & H1 & H2 & H3); auto.
Qed.

Lemma concurrent_updates_serialize_witness :
  rel_get (stored_relation (deriveKey user1 user2)
             (interleave [true; false; true; false; false]
                (Calling user1 user2 [(FOLLOW, true)])
                (Calling user1 user2 [(LIKE, true)]) world_linked).2)
          FOLLOW = Some true
  ∧ rel_get (stored_relation (deriveKey user1 user2)
               (interleave [true; false; true; false; false]
                  (Calling user1 user2 [(FOLLOW, true)])
                  (Calling user1 user2 [(LIKE, true)]) world_linked).2)
            LIKE = Some true.
Proof.
  destruct (concurrent_updates_serialize world_linked
              (interleave [true; false; true; false; false]
                 (Calling user1 user2 [(FOLLOW, true)])
                 (Calling user1 user2 [(LIKE, true)]) world_linked).2
              [true; false; true; false; false] user1 user2 user1 user2
              (Some {[FOLLOW := true]}) (Some {[LIKE := true]})
              [(FOLLOW, true)] [(LIKE, true)])
    as (_ & Ht & _).
  - reflexivity.
  - by rewrite entries_singleton.
  - by rewrite entries_singleton.
  - intros v. simpl. destruct (decide (v = FOLLOW)) as [->|Hne].
    + right. reflexivity.
    + left. by apply lookup_singleton_ne.
  - vm_compute. reflexivity.
  - split; apply Ht; [left|right]; reflexivity.
Defined.

(** *** The bucket of arcs, [CreateArc] and [GetRelation] *)

Section BucketInvariant.

Lemma doc_put_keys (k : string) (a : Arc) (ds : list (string * Arc)) :
  (doc_put k a ds).*1 = if decide (k ∈ ds.*1) then ds.*1 else ds.*1 ++ [k].
Proof.
  induction ds as [|[k0 a0] ds IH]; [done|].
  rewrite fmap_cons. cbn [doc_put fst].
  destruct (decide (k = k0)) as [->|Hne].
  - rewrite fmap_cons. cbn [fst].
    rewrite decide_True; [done|apply list_elem_of_here].
  - rewrite fmap_cons, IH. cbn [fst].
    destruct (decide (k ∈ ds.*1)) as [Hin|Hnin].
    + rewrite decide_True; [done|]. by apply list_elem_of_further.
    + rewrite decide_False; [done|].
      intros [?|?]%elem_of_cons; done.
Qed.

Lemma doc_put_ok (k : string) (a : Arc) (ds : list (string * Arc)) :
  bucket_ok ds → k = MetaId (GetMeta a) → ArcType a = OBJ_ARC →
  bucket_ok (doc_put k a ds).
Proof.
  intros [Hnd Hall] Hk Ht. split.
  - rewrite doc_put_keys. case_decide; [done|].
    apply NoDup_app. split; [done|]. split; [|apply NoDup_singleton].
    intros x Hx ->%list_elem_of_singleton. done.
  - clear Hnd. induction ds as [|[k0 a0] ds IH]; simpl.
    + by repeat constructor.
    + apply Forall_cons in Hall as [H0 Hall].
      destruct (decide (k = k0)); constructor; auto.
Qed.

(** How a call of the store ends. *)
Lemma store_call_cases {A} (op : M A) (w : World) :
  (∃ e fs, faults w = Some e :: fs
           ∧ store_call op w = (Fail e, set_faults fs w))
  ∨ (∃ fs, (faults w = [] ∧ fs = [] ∨ faults w = None :: fs)
           ∧ store_call op w = op (set_faults fs w)).
Proof.
  unfold store_call. destruct w as [ds ls nl fs qs]. simpl.
  destruct fs as [|[e|] fs].
  - right. exists []. split; [by left|done].
  - left. by exists e, fs.
  - right. exists fs. split; [by right|done].
Qed.

(** The bucket after [CreateArc], whatever its outcome. *)
Lemma CreateArc_docs (now : Z) (tail head : Node) (r : Relation)
    (opts : Options) (w : World) :
  docs (CreateArc now tail head r opts w).2 = docs w
  ∨ docs (CreateArc now tail head r opts w).2
    = doc_put (deriveKey tail head) (mkArc OBJ_ARC tail head r opts now)
              (docs w).
Proof.
  unfold CreateArc, db_Upsert, store_call.
  destruct w as [ds ls nl [|[e|] fs] qs]; simpl; auto.
Qed.

(** The bucket after [UpdateRelation], whatever its outcome. *)
Lemma UpdateRelation_in_docs (es : list (RelationVerb * bool))
    (tail head : Node) (w : World) :
  docs (UpdateRelation_in es tail head w).2 = docs w
  ∨ ∃ la', update_locked (locked_read tail head w) tail head es = Some la'
           ∧ docs (UpdateRelation_in es tail head w).2
             = doc_put (deriveKey tail head) (SetType la') (docs w).
Proof.
  destruct (UpdateRelation_in es tail head w) as [[[]|e|] w'] eqn:Hrun.
  { right. apply UpdateRelation_in_Ok in Hrun as (la' & Hup & Hd).
    by exists la'. }
  all: left; revert Hrun; unfold UpdateRelation_in, bind, db_GetLock,
    db_WriteUnlock, store_call;
    destruct w as [ds ls nl fs qs]; cbn [faults locks docs next_lock queries];
    cbv zeta;
    repeat (match goal with
            | |- context [match ?x with _ => _ end] =>
                match x with
                | context [match _ with _ => _ end] => fail 1
                | _ => destruct x eqn:?
                end
            end; cbn [faults locks docs next_lock queries set_faults panic]);
    try done; unfold panic; by intros ?; simplify_eq.
Qed.

(** What [GetRelation] does in a world where the store answers. *)
Lemma GetRelation_eval (tail head : Node) (w : World) :
  faults w = [] →
  GetRelation tail head w
  = (match doc_get (deriveKey tail head) (docs w) with
     | Some a => Ok (ArcRelation a)
     | None => Fail ERR_NOT_FOUND
     end, w).
Proof.
  intros Hf. unfold GetRelation, bind, db_Get, store_call. rewrite Hf.
  rewrite probe_key. by destruct (doc_get _ _).
Qed.

(** A successful [CreateArc], with the locks. *)
Lemma CreateArc_Ok_world (now : Z) (tail head : Node) (r : Relation)
    (opts : Options) (w w' : World) :
  CreateArc now tail head r opts w = (Ok tt, w') →
  docs w' = doc_put (deriveKey tail head)
                    (mkArc OBJ_ARC tail head r opts now) (docs w)
  ∧ locks w' = locks w.
Proof.
  unfold CreateArc, db_Upsert. intros (fs & Hop & _)%store_call_Ok.
  by injection Hop as <-.
Qed.

End BucketInvariant.

(** X1: [CreateArc] and [UpdateRelation] keep the bucket well formed,
    whatever their outcome: no key holds two documents, and every document
    sits under the key of its own endpoints and has the type of arcs. *)
Theorem bucket_stays_well_formed (w : World) (now : Z) (tail head : Node)
    (r : Relation) (opts : Options) (es : list (RelationVerb * bool)) :
  bucket_ok (docs w) →
  bucket_ok (docs (CreateArc now tail head r opts w).2)
  ∧ bucket_ok (docs (UpdateRelation_in es tail head w).2).
Proof.
  intros Hok. split.
  - destruct (CreateArc_docs now tail head r opts w) as [->| ->]; [done|].
    by apply doc_put_ok.
  - destruct (UpdateRelation_in_docs es tail head w)
      as [->|(la' & Hup & ->)]; [done|].
    apply doc_put_ok; [done| |done].
    by rewrite <- (update_locked_key _ _ _ _ _ Hup).
Qed.

Lemma bucket_stays_well_formed_witness :
  bucket_ok (docs world_following)
  ∧ bucket_ok (docs (UpdateRelation user1 user2 (Some {[LIKE := true]})
                                    world_following).2).
Proof.
  assert (H0 : bucket_ok (docs emptyWorld)) by (split; constructor).
  assert (H1 : bucket_ok (docs world_following)).
  { apply (bucket_stays_well_formed emptyWorld 7 user1 user2
             (Some {[FOLLOW := true]}) opts0 [] H0). }
  split; [exact H1|].
  apply (bucket_stays_well_formed world_following 7 user1 user2 None opts0
           (rel_entries (Some {[LIKE := true]})) H1).
Defined.

(** X2: after a successful [CreateArc(tail, head, r, opts)], [GetRelation]
    on a pair with the same key returns exactly [r], with its false
    entries if it has any, as long as the store answers. The pair can be
    another pair of nodes: kinds and ids that run together to the same
    text share one arc. *)
Theorem GetRelation_returns_what_CreateArc_stored (w w' : World) (now : Z)
    (tail head tail' head' : Node) (r : Relation) (opts : Options) :
  deriveKey tail' head' = deriveKey tail head →
  CreateArc now tail head r opts w = (Ok tt, w') →
  faults w' = [] →
  GetRelation tail' head' w' = (Ok r, w').
Proof.
  intros Hk [Hd _]%CreateArc_Ok_world Hf.
  rewrite GetRelation_eval by done. by rewrite Hk, Hd, doc_get_put_eq.
Qed.

Lemma GetRelation_returns_what_CreateArc_stored_witness :
  (GetRelation node_a_bc user2
     (CreateArc 7 node_ab_c user2 (Some {[FOLLOW := false]}) opts0
                emptyWorld).2).1
  = Ok (Some {[FOLLOW := false]}).
Proof.
  rewrite (GetRelation_returns_what_CreateArc_stored emptyWorld
             (CreateArc 7 node_ab_c user2 (Some {[FOLLOW := false]}) opts0
                        emptyWorld).2
             7 node_ab_c user2 node_a_bc user2 (Some {[FOLLOW := false]})
             opts0); reflexivity.
Defined.

(** X3: a successful [CreateArc] replaces the arc of the pair as a whole:
    the stored arc has the endpoints, relation map, options and time of
    the call and nothing of the arc that was there. The documents under
    other keys and the locks are left as they are: it writes whether or not
    the lock of the arc is held. *)
Theorem CreateArc_replaces_the_arc (w w' : World) (now : Z)
    (tail head : Node) (r : Relation) (opts : Options) :
  CreateArc now tail head r opts w = (Ok tt, w') →
  doc_get (deriveKey tail head) (docs w')
  = Some (mkArc OBJ_ARC tail head r opts now)
  ∧ (∀ k, k ≠ deriveKey tail head →
          doc_get k (docs w') = doc_get k (docs w))
  ∧ locks w' = locks w.
Proof.
  intros [Hd Hl]%CreateArc_Ok_world. rewrite Hd. split; [|split; [|done]].
  - apply doc_get_put_eq.
  - intros k Hk. by apply doc_get_put_ne.
Qed.

Lemma CreateArc_replaces_the_arc_witness :
  doc_get (deriveKey user1 user2)
    (docs (CreateArc 9 user1 user2 None opts0 world_following).2)
  = Some (mkArc OBJ_ARC user1 user2 None opts0 9).
Proof.
  apply (CreateArc_replaces_the_arc world_following
           (CreateArc 9 user1 user2 None opts0 world_following).2
           9 user1 user2 None opts0).
  reflexivity.
Defined.

(** X4: over a store that answers, [GetRelation] fails with [NotFound]
    exactly when the bucket has no document under the key of the pair. *)
Theorem GetRelation_NotFound_iff_absent (w : World) (tail head : Node) :
  faults w = [] →
  (GetRelation tail head w).1 = Fail ERR_NOT_FOUND
  ↔ doc_get (deriveKey tail head) (docs w) = None.
Proof.
  intros Hf. rewrite GetRelation_eval by done. simpl.
  destruct (doc_get _ _); split; done.
Qed.

Lemma GetRelation_NotFound_iff_absent_witness :
  (GetRelation user2 user1 world_following).1 = Fail ERR_NOT_FOUND.
Proof.
  apply (GetRelation_NotFound_iff_absent world_following user2 user1);
    reflexivity.
Defined.

(** *** More on [UpdateRelation] *)

Section UpdateMore.

(** A successful [UpdateRelation], with the locks. *)
Lemma UpdateRelation_in_Ok_world (es : list (RelationVerb * bool))
    (tail head : Node) (w w' : World) :
  UpdateRelation_in es tail head w = (Ok tt, w') →
  ∃ la', update_locked (locked_read tail head w) tail head es = Some la'
         ∧ docs w' = doc_put (deriveKey tail head) (SetType la') (docs w)
         ∧ locks w' = locks w
         ∧ locks w !! deriveKey tail head = None.
Proof.
  unfold UpdateRelation_in, bind.
  destruct (db_GetLock (probe tail head) w) as [[[la lock]| |] w1] eqn:Hlock;
    [|done..].
  unfold db_GetLock in Hlock. apply store_call_Ok in Hlock as (fs & Hop & _).
  rewrite probe_key in Hop. simpl in Hop.
  destruct (locks w !! deriveKey tail head) eqn:Hfree; [done|].
  injection Hop as <- <- <-.
  fold (locked_read tail head w).
  destruct (update_locked (locked_read tail head w) tail head es)
    as [la'|] eqn:Hup; [|done].
  intros Hw. exists la'. split; [done|].
  unfold db_WriteUnlock in Hw. apply store_call_Ok in Hw as (fs' & Hop & _).
  cbv zeta in Hop. rewrite (update_locked_key _ _ _ _ _ Hup) in Hop.
  case_decide; [|done]. injection Hop as <-. simpl.
  by rewrite delete_insert_id.
Qed.

Lemma update_locked_shape (la la' : Arc) (tail head : Node)
    (es : list (RelationVerb * bool)) :
  update_locked la tail head es = Some la' →
  ∃ rel, merge (ArcRelation la) es = Some rel
         ∧ la' = mkArc (ArcType la) tail head rel (ArcOptions la)
                       (CreatedAt la).
Proof.
  unfold update_locked. destruct (merge _ es) as [rel|]; [|done].
  intros [= <-]. by exists rel.
Qed.

(** The merge never turns the nil map into a map, nor a map into nil. *)
Lemma merge_nil_iff (es : list (RelationVerb * bool)) :
  ∀ rel rel' : Relation,
    merge rel es = Some rel' → (rel = None ↔ rel' = None).
Proof.
  induction es as [|[k b] es IH]; intros rel rel'; simpl.
  - by intros [= <-].
  - destruct b.
    + destruct rel as [m|]; simpl; [|done]. intros Hm.
      apply IH in Hm. rewrite <- Hm. done.
    + intros Hm. apply IH in Hm. rewrite <- Hm. by destruct rel.
Qed.

Lemma merge_some (es : list (RelationVerb * bool)) :
  ∀ m : gmap string bool, ∃ m', merge (Some m) es = Some (Some m').
Proof.
  induction es as [|[k b] es IH]; intros m; simpl.
  - by exists m.
  - destruct b; apply IH.
Qed.

Lemma merge_nil_false (es : list (RelationVerb * bool)) :
  Forall (λ e, e.2 = false) es → merge None es = Some None.
Proof.
  induction 1 as [|[k b] es Hb _ IH]; [done|]. simpl in *. by subst b.
Qed.

Lemma merge_nil_None_inv (es : list (RelationVerb * bool)) :
  merge None es = None → ∃ v, (v, true) ∈ es.
Proof.
  induction es as [|[k b] es IH]; [done|]. simpl. destruct b; simpl.
  - intros _. exists k. apply list_elem_of_here.
  - intros [v Hv]%IH. exists v. by apply list_elem_of_further.
Qed.

(** Two relation maps with the same entries, both nil or both not, are the
    same map. *)
Lemma rel_ext (r1 r2 : Relation) :
  (r1 = None ↔ r2 = None) → (∀ v, rel_get r1 v = rel_get r2 v) → r1 = r2.
Proof.
  destruct r1 as [m1|], r2 as [m2|]; simpl; intros Hn Hv.
  - f_equal. by apply map_eq.
  - by destruct Hn as [_ Hn]; specialize (Hn eq_refl).
  - by destruct Hn as [Hn _]; specialize (Hn eq_refl).
  - done.
Qed.

(** The merge does not depend on the order of the range. *)
Lemma merge_any_order (delta rel : Relation)
    (es1 es2 : list (RelationVerb * bool)) :
  es1 ≡ₚ rel_entries delta → es2 ≡ₚ rel_entries delta →
  merge rel es1 = merge rel es2.
Proof.
  intros Hp1 Hp2.
  destruct (merge rel es1) as [r1|] eqn:H1, (merge rel es2) as [r2|] eqn:H2.
  - f_equal. apply rel_ext.
    + by rewrite <- (merge_nil_iff _ _ _ H1), <- (merge_nil_iff _ _ _ H2).
    + intros v. by rewrite (merge_delta _ _ _ _ Hp1 H1),
                           (merge_delta _ _ _ _ Hp2 H2).
  - exfalso. destruct rel as [m|].
    + destruct (merge_some es2 m) as [m' Hm]. congruence.
    + apply merge_nil_None_inv in H2 as [v Hv].
      destruct (range_order _ _ Hp1) as [_ Hin1].
      destruct (range_order _ _ Hp2) as [_ Hin2].
      apply Hin2, Hin1 in Hv. rewrite (merge_nil_faults es1 v Hv) in H1. done.
  - exfalso. destruct rel as [m|].
    + destruct (merge_some es1 m) as [m' Hm]. congruence.
    + apply merge_nil_None_inv in H1 as [v Hv].
      destruct (range_order _ _ Hp1) as [_ Hin1].
      destruct (range_order _ _ Hp2) as [_ Hin2].
      apply Hin1, Hin2 in Hv. rewrite (merge_nil_faults es2 v Hv) in H2. done.
  - done.
Qed.

Lemma doc_put_put (k : string) (a b : Arc) (ds : list (string * Arc)) :
  doc_put k a (doc_put k b ds) = doc_put k a ds.
Proof.
  induction ds as [|[k0 a0] ds IH]; simpl.
  - by rewrite decide_True.
  - destruct (decide (k = k0)) as [->|Hne]; simpl.
    + by rewrite decide_True.
    + by rewrite decide_False, IH.
Qed.

Lemma merged_twice (old d : option bool) :
  merged (merged old d) d = merged old d.
Proof. by destruct d as [[|]|]. Qed.

(** Over a store that answers, a call that finds the lock held is turned
    away and changes nothing. *)
Lemma UpdateRelation_in_refused (es : list (RelationVerb * bool))
    (tail head : Node) (w : World) (lk : N) :
  faults w = [] → locks w !! deriveKey tail head = Some lk →
  UpdateRelation_in es tail head w = (Fail ERR_LOCKED, w).
Proof.
  intros Hf Hl. unfold UpdateRelation_in, bind, db_GetLock, store_call.
  rewrite Hf, probe_key. cbv zeta. by rewrite Hl.
Qed.

End UpdateMore.

(** X5: the outcome of [UpdateRelation] and the world it leaves do not
    depend on the order in which the range visits the entries of the
    delta. *)
Theorem UpdateRelation_any_order (w : World) (tail head : Node)
    (delta : Relation) (es1 es2 : list (RelationVerb * bool)) :
  es1 ≡ₚ rel_entries delta → es2 ≡ₚ rel_entries delta →
  UpdateRelation_in es1 tail head w = UpdateRelation_in es2 tail head w.
Proof.
  intros Hp1 Hp2. unfold UpdateRelation_in, bind.
  destruct (db_GetLock (probe tail head) w) as [[[la lock]|e|] w1]; [|done..].
  unfold update_locked.
  by rewrite (merge_any_order delta (ArcRelation la) es1 es2 Hp1 Hp2).
Qed.

Lemma UpdateRelation_any_order_witness :
  UpdateRelation_in [(FOLLOW, true); (LIKE, false)] user1 user2 world_linked
  = UpdateRelation_in [(LIKE, false); (FOLLOW, true)] user1 user2
                      world_linked.
Proof.
  apply (UpdateRelation_any_order world_linked user1 user2
           (Some (<[FOLLOW := true]> {[LIKE := false]}))).
  - vm_compute. first [reflexivity | apply perm_swap].
  - vm_compute. first [reflexivity | apply perm_swap].
Defined.

(** X6: merging the same delta a second time changes nothing: after two
    successful calls of [UpdateRelation] with one delta the bucket is the
    bucket after the first. *)
Theorem UpdateRelation_idempotent (w w1 w2 : World) (tail head : Node)
    (delta : Relation) (es1 es2 : list (RelationVerb * bool)) :
  es1 ≡ₚ rel_entries delta → es2 ≡ₚ rel_entries delta →
  UpdateRelation_in es1 tail head w = (Ok tt, w1) →
  UpdateRelation_in es2 tail head w1 = (Ok tt, w2) →
  docs w2 = docs w1.
Proof.
  intros Hp1 Hp2 (la1 & Hup1 & Hd1)%UpdateRelation_in_Ok
         (la2 & Hup2 & Hd2)%UpdateRelation_in_Ok.
  unfold locked_read in Hup2. rewrite Hd1, doc_get_put_eq in Hup2.
  simpl in Hup2. rewrite Hd2, Hd1, doc_put_put. f_equal.
  apply update_locked_shape in Hup1 as (rel1 & Hm1 & ->).
  apply update_locked_shape in Hup2 as (rel2 & Hm2 & ->).
  simpl in *. unfold SetType. simpl. f_equal.
  apply rel_ext.
  - symmetry. apply (merge_nil_iff _ _ _ Hm2).
  - intros v. rewrite (merge_delta _ _ _ _ Hp2 Hm2).
    rewrite (merge_delta _ _ _ _ Hp1 Hm1). apply merged_twice.
Qed.

Lemma UpdateRelation_idempotent_witness :
  docs (UpdateRelation user1 user2 (Some {[FOLLOW := true]})
          (UpdateRelation user1 user2 (Some {[FOLLOW := true]})
                          world_linked).2).2
  = docs (UpdateRelation user1 user2 (Some {[FOLLOW := true]})
                         world_linked).2.
Proof.
  apply (UpdateRelation_idempotent world_linked _ _ user1 user2
           (Some {[FOLLOW := true]}) (rel_entries (Some {[FOLLOW := true]}))
           (rel_entries (Some {[FOLLOW := true]}))).
  - reflexivity.
  - reflexivity.
  - vm_compute. reflexivity.
  - vm_compute. reflexivity.
Defined.

(** X7: a successful [UpdateRelation] on an existing arc stores the
    endpoints as the caller gave them, name and photo included, and keeps
    the options of the arc; the stored document has the type of arcs. *)
Theorem UpdateRelation_refreshes_endpoints (w w' : World)
    (tail head : Node) (es : list (RelationVerb * bool)) (a : Arc) :
  doc_get (deriveKey tail head) (docs w) = Some a →
  UpdateRelation_in es tail head w = (Ok tt, w') →
  ∃ a', doc_get (deriveKey tail head) (docs w') = Some a'
        ∧ Tail a' = tail ∧ Head a' = head
        ∧ ArcOptions a' = ArcOptions a ∧ ArcType a' = OBJ_ARC.
Proof.
  intros Ha (la' & Hup & Hd)%UpdateRelation_in_Ok.
  rewrite (locked_read_present _ _ _ _ Ha) in Hup.
  apply update_locked_shape in Hup as (rel & _ & ->).
  eexists. rewrite Hd, doc_get_put_eq. by repeat split.
Qed.

Lemma UpdateRelation_refreshes_endpoints_witness :
  ∃ a', doc_get (deriveKey user1 user2)
          (docs (UpdateRelation_in [] (mkNode "user" "1" "Alice B." "a.png")
                                   user2 world_linked).2) = Some a'
        ∧ Name (Tail a') = "Alice B.".
Proof.
  destruct (UpdateRelation_refreshes_endpoints world_linked
              (UpdateRelation_in [] (mkNode "user" "1" "Alice B." "a.png")
                                 user2 world_linked).2
              (mkNode "user" "1" "Alice B." "a.png") user2 []
              (mkArc OBJ_ARC user1 user2 (Some ∅) opts0 7))
    as (a' & Ha' & Ht & _).
  - reflexivity.
  - vm_compute. reflexivity.
  - exists a'. split; [exact Ha'|]. by rewrite Ht.
Defined.

(** X8: a successful [UpdateRelation] leaves the documents under all other
    keys as they are and has released the lock it took: the locks are those
    held before the call. *)
Theorem UpdateRelation_touches_one_arc (w w' : World) (tail head : Node)
    (es : list (RelationVerb * bool)) :
  UpdateRelation_in es tail head w = (Ok tt, w') →
  (∀ k, k ≠ deriveKey tail head → doc_get k (docs w') = doc_get k (docs w))
  ∧ locks w' = locks w.
Proof.
  intros (la' & _ & Hd & Hl & _)%UpdateRelation_in_Ok_world.
  split; [|done]. intros k Hk. rewrite Hd. by apply doc_get_put_ne.
Qed.

Lemma UpdateRelation_touches_one_arc_witness :
  locks (UpdateRelation user1 user2 (Some {[LIKE := true]})
                        world_following).2 = ∅.
Proof.
  apply (UpdateRelation_touches_one_arc world_following
           (UpdateRelation user1 user2 (Some {[LIKE := true]})
                           world_following).2
           user1 user2 (rel_entries (Some {[LIKE := true]}))).
  vm_compute. reflexivity.
Defined.

(** X9: two successful calls of [UpdateRelation] on a pair, one after the
    other, leave each verb as the second delta says where it mentions the
    verb, else as the first delta says where that mentions it, else as it
    was. *)
Theorem UpdateRelation_composes (w w1 w2 : World) (t1 h1 t2 h2 : Node)
    (d1 d2 : Relation) (es1 es2 : list (RelationVerb * bool)) :
  deriveKey t1 h1 = deriveKey t2 h2 →
  es1 ≡ₚ rel_entries d1 → es2 ≡ₚ rel_entries d2 →
  UpdateRelation_in es1 t1 h1 w = (Ok tt, w1) →
  UpdateRelation_in es2 t2 h2 w1 = (Ok tt, w2) →
  ∀ v, rel_get (stored_relation (deriveKey t1 h1) w2) v
       = merged (merged (rel_get (stored_relation (deriveKey t1 h1) w) v)
                        (rel_get d1 v))
                (rel_get d2 v).
Proof.
  intros Hk Hp1 Hp2 (la1 & Hup1 & Hd1)%UpdateRelation_in_Ok
         (la2 & Hup2 & Hd2)%UpdateRelation_in_Ok v.
  unfold locked_read in Hup2.
  rewrite <- Hk, Hd1, doc_get_put_eq in Hup2. simpl in Hup2.
  rewrite <- (locked_read_relation t1 h1 w).
  rewrite <- (two_merges t1 h1 t2 h2 d1 d2 es1 es2 _ la1 la2 v Hp1 Hp2
                Hup1 Hup2).
  unfold stored_relation. by rewrite Hd2, <- Hk, doc_get_put_eq.
Qed.

Lemma UpdateRelation_composes_witness :
  rel_get (stored_relation (deriveKey user1 user2)
             (UpdateRelation user1 user2 (Some {[LIKE := true]})
                (UpdateRelation user1 user2 (Some {[FOLLOW := true]})
                                world_linked).2).2) FOLLOW
  = Some true.
Proof.
  rewrite (UpdateRelation_composes world_linked
             (UpdateRelation user1 user2 (Some {[FOLLOW := true]})
                             world_linked).2
             (UpdateRelation user1 user2 (Some {[LIKE := true]})
                (UpdateRelation user1 user2 (Some {[FOLLOW := true]})
                                world_linked).2).2
             user1 user2 user1 user2
             (Some {[FOLLOW := true]}) (Some {[LIKE := true]})
             (rel_entries (Some {[FOLLOW := true]}))
             (rel_entries (Some {[LIKE := true]}))).
  - reflexivity.
  - reflexivity.
  - reflexivity.
  - reflexivity.
  - vm_compute. reflexivity.
  - vm_compute. reflexivity.
Defined.

(** X10: on an arc whose stored relation map is not nil, over a store
    that answers and with the lock free, [UpdateRelation] succeeds for
    every delta: the merge cannot fault. *)
Theorem UpdateRelation_succeeds_on_a_map (w : World) (tail head : Node)
    (es : list (RelationVerb * bool)) (a : Arc) (m : gmap string bool) :
  faults w = [] → locks w !! deriveKey tail head = None →
  doc_get (deriveKey tail head) (docs w) = Some a →
  ArcRelation a = Some m →
  (UpdateRelation_in es tail head w).1 = Ok tt.
Proof.
  intros Hf Hl Ha Hm. destruct (merge_some es m) as [m' Hmerge].
  rewrite (UpdateRelation_in_alone es tail head
             (mkArc (ArcType a) tail head (Some m') (ArcOptions a)
                    (CreatedAt a))); try done.
  rewrite (locked_read_present _ _ _ _ Ha). unfold update_locked.
  by rewrite Hm, Hmerge.
Qed.

Lemma UpdateRelation_succeeds_on_a_map_witness :
  (UpdateRelation_in [(FOLLOW, true); (LIKE, false)] user1 user2
                     world_linked).1 = Ok tt.
Proof.
  apply (UpdateRelation_succeeds_on_a_map world_linked user1 user2
           [(FOLLOW, true); (LIKE, false)]
           (mkArc OBJ_ARC user1 user2 (Some ∅) opts0 7) ∅); reflexivity.
Defined.

(** X11: on a fresh pair, over a store that answers and with the lock
    free, [UpdateRelation] with a delta that sets no verb (an empty delta,
    or false entries only) succeeds and creates the arc: a document with
    the nil relation map, zero options and the zero time as [createdAt]. *)
Theorem UpdateRelation_creates_an_arc_without_map (w : World)
    (tail head : Node) (es : list (RelationVerb * bool)) :
  faults w = [] → locks w !! deriveKey tail head = None →
  doc_get (deriveKey tail head) (docs w) = None →
  Forall (λ e, e.2 = false) es →
  (UpdateRelation_in es tail head w).1 = Ok tt
  ∧ doc_get (deriveKey tail head) (docs (UpdateRelation_in es tail head w).2)
    = Some (mkArc OBJ_ARC tail head None (mkOptions 0) 0).
Proof.
  intros Hf Hl Hd Hes.
  rewrite (UpdateRelation_in_alone es tail head
             (mkArc EmptyString tail head None (mkOptions 0) 0)); try done.
  - split; [done|]. simpl. by rewrite doc_get_put_eq.
  - rewrite (locked_read_absent _ _ _ Hd). unfold update_locked. simpl.
    by rewrite (merge_nil_false es Hes).
Qed.

Lemma UpdateRelation_creates_an_arc_without_map_witness :
  (UpdateRelation user1 user2 (Some {[FOLLOW := false]}) emptyWorld).1
  = Ok tt
  ∧ doc_get (deriveKey user1 user2)
      (docs (UpdateRelation user1 user2 (Some {[FOLLOW := false]})
                            emptyWorld).2)
    = Some (mkArc OBJ_ARC user1 user2 None (mkOptions 0) 0).
Proof.
  apply (UpdateRelation_creates_an_arc_without_map emptyWorld user1 user2
           (rel_entries (Some {[FOLLOW := false]}))).
  - reflexivity.
  - reflexivity.
  - reflexivity.
  - vm_compute. by repeat constructor.
Defined.

(** X12: [UpdateRelation] never allocates the relation map: when the pair
    has no document, or a document with the nil map, the map stored by a
    successful call is nil again. Only [CreateArc] gives a pair a map that
    verbs can be set in. *)
Theorem UpdateRelation_never_allocates (w w' : World) (tail head : Node)
    (es : list (RelationVerb * bool)) :
  stored_relation (deriveKey tail head) w = None →
  UpdateRelation_in es tail head w = (Ok tt, w') →
  stored_relation (deriveKey tail head) w' = None.
Proof.
  intros Hnil (la' & Hup & Hd)%UpdateRelation_in_Ok.
  apply update_locked_shape in Hup as (rel & Hm & ->).
  rewrite locked_read_relation, Hnil in Hm.
  unfold stored_relation. rewrite Hd, doc_get_put_eq. simpl.
  by apply (merge_nil_iff _ _ _ Hm).
Qed.

Lemma UpdateRelation_never_allocates_witness :
  stored_relation (deriveKey user1 user2)
    (UpdateRelation user1 user2 (Some {[FOLLOW := false]}) emptyWorld).2
  = None.
Proof.
  apply (UpdateRelation_never_allocates emptyWorld _ user1 user2
           (rel_entries (Some {[FOLLOW := false]}))).
  - reflexivity.
  - vm_compute. reflexivity.
Defined.

(** X13: [UpdateRelation] has no unlock on the path of a fault: after the
    fault on the nil map the lock of the arc is still held, and a further
    [UpdateRelation] on the pair is turned away with the lock error and
    changes nothing, whatever its delta. *)
Theorem UpdateRelation_fault_keeps_the_lock (w : World) (tail head : Node)
    (es es' : list (RelationVerb * bool)) (v : RelationVerb) :
  faults w = [] → locks w !! deriveKey tail head = None →
  ArcRelation (locked_read tail head w) = None → (v, true) ∈ es →
  locks (UpdateRelation_in es tail head w).2 !! deriveKey tail head
  = Some (next_lock w)
  ∧ UpdateRelation_in es' tail head (UpdateRelation_in es tail head w).2
    = (Fail ERR_LOCKED, (UpdateRelation_in es tail head w).2).
Proof.
  intros Hf Hl Hnil Hin.
  rewrite (UpdateRelation_in_nil_panics es tail head w v Hf Hl Hnil Hin).
  cbn [snd]. split; [apply lookup_insert_eq|].
  apply (UpdateRelation_in_refused es' tail head _ (next_lock w)); [done|].
  apply lookup_insert_eq.
Qed.

Lemma UpdateRelation_fault_keeps_the_lock_witness :
  (UpdateRelation_in [(FOLLOW, false)] user1 user2
     (UpdateRelation_in [(FOLLOW, true)] user1 user2 emptyWorld).2).1
  = Fail ERR_LOCKED.
Proof.
  destruct (UpdateRelation_fault_keeps_the_lock emptyWorld user1 user2
              [(FOLLOW, true)] [(FOLLOW, false)] FOLLOW) as [_ H].
  - reflexivity.
  - reflexivity.
  - reflexivity.
  - apply list_elem_of_here.
  - by rewrite H.
Defined.

Lemma directionality_on_existing_arc_witness :
  (∃ r, (GetRelation user1 user2
           (UpdateRelation user1 user2 (Some {[FOLLOW := true]})
                           world_linked).2).1 = Ok r
        ∧ rel_get r FOLLOW = Some true)
  ∧ (GetRelation user2 user1
       (UpdateRelation user1 user2 (Some {[FOLLOW := true]})
                       world_linked).2).1 = Fail ERR_NOT_FOUND.
Proof.
  apply (directionality_on_existing_arc world_linked
           (UpdateRelation user1 user2 (Some {[FOLLOW := true]})
                           world_linked).2
           user1 user2 (mkArc OBJ_ARC user1 user2 (Some ∅) opts0 7)).
  - reflexivity.
  - reflexivity.
  - vm_compute. discriminate.
  - vm_compute. reflexivity.
  - reflexivity.
Defined.

(** *** Reads *)

Section Reads.

Lemma unchanged_refl (w : World) : unchanged w w.
Proof. by split. Qed.

Lemma store_call_unchanged {A} (op : M A) (w : World) :
  (∀ w0, unchanged w0 (op w0).2) → unchanged w (store_call op w).2.
Proof.
  intros Hop. unfold store_call. destruct w as [ds ls nl [|[e|] fs] qs]; simpl.
  - apply Hop.
  - by split.
  - apply (Hop (mkWorld ds ls nl fs qs)).
Qed.

Lemma db_ExecPagedQuery_unchanged (qr : NodeQueryResult) (q : Stmt)
    (limit offset : Z) (w : World) :
  unchanged w (db_ExecPagedQuery qr q limit offset w).2.
Proof. apply store_call_unchanged. intros w0. by split. Qed.

Lemma query_page_unchanged (qr : NodeQueryResult) (q : Stmt)
    (limit offset : Z) (w : World) :
  unchanged w (query_page qr q limit offset w).2.
Proof.
  unfold query_page, bind.
  pose proof (db_ExecPagedQuery_unchanged qr q limit offset w) as H.
  destruct (db_ExecPagedQuery qr q limit offset w) as [[[qr1 size]|e|] w1];
    [|done..].
  by destruct (slice_to (Results qr1) size).
Qed.

Lemma count_unchanged (q : Stmt) (w : World) :
  unchanged w (bind (db_ExecCount q) (λ count, ret count) w).2.
Proof.
  unfold bind.
  assert (H : unchanged w (db_ExecCount q w).2).
  { apply store_call_unchanged. intros w0. by split. }
  by destruct (db_ExecCount q w) as [[c|e|] w1].
Qed.

Lemma GetRelation_unchanged (tail head : Node) (w : World) :
  unchanged w (GetRelation tail head w).2.
Proof.
  unfold GetRelation, bind.
  assert (H : unchanged w (db_Get (probe tail head) w).2).
  { apply store_call_unchanged. intros w0. by destruct (doc_get _ _). }
  by destruct (db_Get (probe tail head) w) as [[a|e|] w1].
Qed.

Lemma forEach_loop_unchanged {S} (MAX : Z) (cb : Node → S → S) (q : Stmt)
    (fuel : nat) :
  ∀ (size offset : Z) (s : S) (w : World) out w',
    forEach_loop MAX cb fuel q size offset s w = Some (out, w') →
    unchanged w w'.
Proof.
  induction fuel as [|fuel IH]; intros size offset s w out w'; simpl.
  - case_decide; [done|]. intros [= _ <-]. apply unchanged_refl.
  - case_decide; [|intros [= _ <-]; apply unchanged_refl].
    pose proof (db_ExecPagedQuery_unchanged zeroQR q size offset w) as [Hd Hl].
    destruct (db_ExecPagedQuery zeroQR q size offset w)
      as [[[qr1 size1]|e|] w1]; simpl in *.
    + destruct (each_row cb (Results qr1) 0 (Z.to_nat size1) s) as [s'|].
      * intros [Hd' Hl']%IH. split; congruence.
      * by intros [= _ <-].
    + by intros [= _ <-].
    + by intros [= _ <-].
Qed.

End Reads.

(** X15: the reading operations, [GetRelation], [QueryTails],
    [QueryHeads], [Indegree], [Outdegree], [ForEachTail] and [ForEachHead],
    change no document and take or release no lock, whether they succeed or
    fail. *)
Theorem reads_change_nothing {S : Type} (MAX : Z) (cb : Node → S → S)
    (fuel : nat) (w : World) (tail head : Node) (r : RelationVerb)
    (qr : NodeQueryResult) (limit offset : Z) (s : S) :
  unchanged w (GetRelation tail head w).2
  ∧ unchanged w (QueryTails qr head r limit offset w).2
  ∧ unchanged w (QueryHeads qr tail r limit offset w).2
  ∧ unchanged w (Indegree head r w).2
  ∧ unchanged w (Outdegree tail r w).2
  ∧ (∀ out w', ForEachTail MAX cb fuel head r s w = Some (out, w') →
               unchanged w w')
  ∧ (∀ out w', ForEachHead MAX cb fuel tail r s w = Some (out, w') →
               unchanged w w').
Proof.
  split; [apply GetRelation_unchanged|].
  split; [apply query_page_unchanged|].
  split; [apply query_page_unchanged|].
  split; [apply count_unchanged|].
  split; [apply count_unchanged|].
  split; intros out w'; apply forEach_loop_unchanged.
Qed.

(** *** Pages, counts and the result buffer *)

Section Paging.

Lemma page_concat (l1 l2 o : Z) (R : list Node) :
  0 ≤ l1 → 0 ≤ l2 → 0 ≤ o →
  page l1 o R ++ page l2 (o + Z.of_nat (length (page l1 o R))) R
  = page (l1 + l2) o R.
Proof.
  intros H1 H2 Ho. unfold page.
  rewrite Z2Nat.inj_add, Nat2Z.id by lia.
  rewrite <- drop_drop, Z2Nat.inj_add by lia.
  set (D := drop (Z.to_nat o) R). rewrite length_take.
  destruct (decide (Z.to_nat l1 ≤ length D)%nat) as [Hle|Hgt].
  - rewrite Nat.min_l by done. by rewrite take_add.
  - rewrite Nat.min_r by lia. rewrite drop_all, take_nil, app_nil_r.
    by rewrite !take_ge by lia.
Qed.

Lemma page_after_short (l1 l2 o : Z) (R : list Node) :
  0 ≤ o → Z.of_nat (length (page l1 o R)) < l1 →
  page l2 (o + Z.of_nat (length (page l1 o R))) R = [].
Proof.
  intros Ho Hs. unfold page in *.
  rewrite Z2Nat.inj_add, Nat2Z.id by lia. rewrite <- drop_drop.
  set (D := drop (Z.to_nat o) R) in *. rewrite length_take in *.
  rewrite Nat.min_r by lia. by rewrite drop_all, take_nil.
Qed.

Lemma page_all (limit : Z) (R : list Node) :
  Z.of_nat (length R) ≤ limit → page limit 0 R = R.
Proof. intros Hl. unfold page. simpl. rewrite drop_0. apply take_ge. lia. Qed.

Lemma slice_put_rows (qr : NodeQueryResult) (rs : list Node) :
  slice_to (Results (put_rows qr 0 rs)) (Z.of_nat (length rs)) = Some rs.
Proof.
  rewrite put_rows_Results by lia. simpl. unfold slice_to.
  rewrite decide_True by (rewrite length_app; lia).
  by rewrite Nat2Z.id, take_app_length.
Qed.

(** What a page query does over a store that answers it. *)
Lemma query_page_eval (qr : NodeQueryResult) (q : Stmt) (limit offset : Z)
    (w : World) :
  answers 1 (faults w) →
  query_page qr q limit offset w
  = (Ok (mkNodeQueryResult (page limit offset (rows q (docs w)))
           (fmt_d (wrap (offset
                         + Z.of_nat (length (page limit offset
                                                  (rows q (docs w)))))))
           (fmt_d offset),
         Z.of_nat (length (page limit offset (rows q (docs w))))),
     mkWorld (docs w) (locks w) (next_lock w) (drop 1 (faults w))
             (queries w ++ [(q, limit, offset)])).
Proof.
  intros Ha. unfold query_page, bind, db_ExecPagedQuery.
  rewrite store_call_answers by done. cbn [fst snd docs set_faults].
  by rewrite slice_put_rows.
Qed.

Lemma scan_order_free (q q' : Stmt) (ds : list (string * Arc)) :
  Select q = Select q' → WhereType q = WhereType q' →
  WhereEnd q = WhereEnd q' → WhereKind q = WhereKind q' →
  WhereId q = WhereId q' → WhereVerb q = WhereVerb q' →
  scan q ds = scan q' ds.
Proof.
  intros Hs Ht He Hk Hi Hv. unfold scan, matches.
  by rewrite Hs, Ht, He, Hk, Hi, Hv.
Qed.

(** Three page queries on the same bucket: two pages in a row, and the
    page that spans both. *)
Lemma pages_in_a_row (q : Stmt) (qa qb qc q1 q2 q3 : NodeQueryResult)
    (l1 l2 o s1 s2 s3 : Z) (wa wb wc wa' wb' wc' : World) :
  0 ≤ l1 → 0 ≤ l2 → 0 ≤ o → docs wb = docs wa → docs wc = docs wa →
  query_page qa q l1 o wa = (Ok (q1, s1), wa') →
  query_page qb q l2 (o + s1) wb = (Ok (q2, s2), wb') →
  query_page qc q (l1 + l2) o wc = (Ok (q3, s3), wc') →
  Results q1 ++ Results q2 = Results q3 ∧ s1 + s2 = s3
  ∧ (s1 < l1 → Results q2 = [] ∧ s2 = 0).
Proof.
  intros H1 H2 Ho Hb Hc (R1 & S1 & _)%query_page_Ok
         (R2 & S2 & _)%query_page_Ok (R3 & S3 & _)%query_page_Ok.
  rewrite Hb in R2. rewrite Hc in R3.
  assert (Hcat : Results q1 ++ Results q2 = Results q3).
  { rewrite R1, R2, R3, S1, R1. by apply page_concat. }
  split; [done|]. split.
  - rewrite S1, S2, S3, <- Hcat, length_app. lia.
  - intros Hs. assert (Results q2 = []) as Hnil.
    { rewrite R2, S1, R1. apply page_after_short; [done|].
      by rewrite <- R1, <- S1. }
    split; [done|]. by rewrite S2, Hnil.
Qed.

End Paging.

(** X16: pages follow one another without a gap and without a repeat:
    for limits and an offset that are not negative, on an unchanged
    bucket, the page of [QueryTails] (or [QueryHeads]) at [offset] followed
    by the page at [offset + size], the [nextOffset] of the first, is the
    page of the two limits together at [offset], and the sizes add up.
    When the first page is short of its limit, the second is empty: a
    short page is the last page. *)
Theorem pages_follow_one_another (wa wb wc : World)
    (qa qb qc : NodeQueryResult) (head tail : Node) (r : RelationVerb)
    (l1 l2 o : Z) :
  0 ≤ l1 → 0 ≤ l2 → 0 ≤ o → docs wb = docs wa → docs wc = docs wa →
  (∀ q1 q2 q3 s1 s2 s3 wa' wb' wc',
     QueryTails qa head r l1 o wa = (Ok (q1, s1), wa') →
     QueryTails qb head r l2 (o + s1) wb = (Ok (q2, s2), wb') →
     QueryTails qc head r (l1 + l2) o wc = (Ok (q3, s3), wc') →
     Results q1 ++ Results q2 = Results q3 ∧ s1 + s2 = s3
     ∧ (s1 < l1 → Results q2 = [] ∧ s2 = 0))
  ∧ (∀ q1 q2 q3 s1 s2 s3 wa' wb' wc',
       QueryHeads qa tail r l1 o wa = (Ok (q1, s1), wa') →
       QueryHeads qb tail r l2 (o + s1) wb = (Ok (q2, s2), wb') →
       QueryHeads qc tail r (l1 + l2) o wc = (Ok (q3, s3), wc') →
       Results q1 ++ Results q2 = Results q3 ∧ s1 + s2 = s3
       ∧ (s1 < l1 → Results q2 = [] ∧ s2 = 0)).
Proof.
  intros H1 H2 Ho Hb Hc. split; intros q1 q2 q3 s1 s2 s3 wa' wb' wc'.
  - by apply pages_in_a_row.
  - by apply pages_in_a_row.
Qed.

Lemma pages_follow_one_another_witness :
  [user1] ++ [user3] = [user1; user3] ∧ 1 + 1 = 2
  ∧ (1 < 1 → [user3] = [] ∧ 1 = 0).
Proof.
  destruct (pages_follow_one_another world_followed world_followed
              world_followed zeroQR zeroQR zeroQR user2 user1 FOLLOW 1 1 0)
    as [Ht _]; try reflexivity; try lia.
  apply (Ht (mkNodeQueryResult [user1] "1" "0")
            (mkNodeQueryResult [user3] "2" "1")
            (mkNodeQueryResult [user1; user3] "2" "0") 1 1 2
            (QueryTails zeroQR user2 FOLLOW 1 0 world_followed).2
            (QueryTails zeroQR user2 FOLLOW 1 1 world_followed).2
            (QueryTails zeroQR user2 FOLLOW 2 0 world_followed).2);
    vm_compute; reflexivity.
Defined.

Section Slots.

Lemma ask_slots_grows (n : nat) :
  ∀ (qr : NodeQueryResult) (index : nat),
    (index ≤ length (Results qr))%nat →
    ask_slots qr index n
    = Some (set_Results
              (Results qr
               ++ replicate (index + n - length (Results qr)) zeroNode) qr).
Proof.
  induction n as [|n IH]; intros qr index Hi.
  - simpl. replace (index + 0 - length (Results qr))%nat with 0%nat by lia.
    destruct qr. unfold set_Results. simpl. by rewrite app_nil_r.
  - cbn [ask_slots]. unfold GetRowPtr.
    destruct (decide (index < length (Results qr))%nat) as [Hlt|Hge].
    + rewrite IH by lia. do 3 f_equal. f_equal. lia.
    + rewrite decide_True by lia. rewrite IH
        by (simpl; rewrite length_app; simpl; lia).
      unfold set_Results. simpl. rewrite length_app. simpl.
      rewrite <- (assoc_L (++)). do 3 f_equal.
      replace (index + Datatypes.S n - length (Results qr))%nat
        with (Datatypes.S (Datatypes.S index + n
                           - (length (Results qr) + 1)))%nat by lia.
      done.
Qed.

End Slots.

(** X17: called for the indices [0], [1], ..., [n - 1] in order,
    [GetRowPtr] hands out a slot every time, and leaves the results as they
    were, with zero nodes appended as far as [n] exceeds their length: old
    results are not dropped (so [QueryTails] cuts them to [size]). Called
    for an index past the end by more than one it returns nil and changes
    nothing. *)
Theorem GetRowPtr_hands_out_slots_in_order (qr : NodeQueryResult) (n : nat) :
  ask_slots qr 0 n
  = Some (set_Results
            (Results qr ++ replicate (n - length (Results qr)) zeroNode) qr)
  ∧ ∀ index : nat,
      (length (Results qr) < index)%nat → GetRowPtr qr index = (qr, None).
Proof.
  split.
  - by rewrite ask_slots_grows by lia.
  - intros index Hi. unfold GetRowPtr.
    rewrite decide_False by lia. by rewrite decide_False by lia.
Qed.

Section Listing.
Context {S : Type}.
Variable MAX : Z.
Variable cb : Node → S → S.
Hypothesis MAX_int : 0 < MAX ≤ max_int.

(** The iteration of the unordered statement visits the rows that the
    ordered statement lists in one page that holds them all. *)
Lemma iteration_lists_query_rows (qo qu : Stmt) (fuel : nat) (s : S)
    (w w' : World) (qr q : NodeQueryResult) (limit size : Z) :
  OrderByName qu = false → (∀ ds, scan qu ds = scan qo ds) →
  Z.of_nat (length (docs w)) ≤ max_int →
  Forall (λ x, x = None) (faults w) →
  (full_rounds MAX (scan qu (docs w)) < fuel)%nat →
  Z.of_nat (length (docs w)) ≤ limit →
  query_page qr qo limit 0 w = (Ok (q, size), w') →
  ∃ l w'', l ≡ₚ Results q
           ∧ forEach_loop MAX cb fuel qu MAX 0 s w
             = Some (Returned (visit cb s l), w'').
Proof.
  intros Ho Hscan Hw Hf Hfuel Hl (HR & _)%query_page_Ok.
  exists (scan qu (docs w)). eexists. split.
  - rewrite HR, page_all.
    + unfold rows. rewrite <- Hscan.
      destruct (OrderByName qo); [|done]. by rewrite merge_sort_Permutation.
    + rewrite rows_length. pose proof (scan_length qo (docs w)). lia.
  - by apply (iteration_exhausts MAX cb MAX_int).
Qed.

End Listing.

(** X18: over a store that answers, [ForEachTail] invokes the callback on
    the nodes that [QueryTails] lists in one page that holds them all, and
    [ForEachHead] on those that [QueryHeads] lists: the same nodes, each as
    often, in an order of the store's choosing. *)
Theorem ForEach_visits_what_Query_lists {S : Type} (MAX : Z)
    (cb : Node → S → S) (fuel : nat) (head tail : Node) (r : RelationVerb)
    (s : S) (w wt wh : World) (qr qt qh : NodeQueryResult)
    (limit st sh : Z) :
  0 < MAX ≤ max_int →
  Z.of_nat (length (docs w)) ≤ max_int →
  Forall (λ x, x = None) (faults w) →
  (full_rounds MAX (scan (tails_stmt head r false) (docs w)) < fuel)%nat →
  (full_rounds MAX (scan (heads_stmt tail r false) (docs w)) < fuel)%nat →
  Z.of_nat (length (docs w)) ≤ limit →
  QueryTails qr head r limit 0 w = (Ok (qt, st), wt) →
  QueryHeads qr tail r limit 0 w = (Ok (qh, sh), wh) →
  (∃ l w', l ≡ₚ Results qt
           ∧ ForEachTail MAX cb fuel head r s w
             = Some (Returned (visit cb s l), w'))
  ∧ (∃ l w', l ≡ₚ Results qh
             ∧ ForEachHead MAX cb fuel tail r s w
               = Some (Returned (visit cb s l), w')).
Proof.
  intros HM Hw Hf Ht Hh Hl Hqt Hqh. split.
  - by apply (iteration_lists_query_rows MAX cb HM (tails_stmt head r true)
                (tails_stmt head r false) fuel s w wt qr qt limit st).
  - by apply (iteration_lists_query_rows MAX cb HM (heads_stmt tail r true)
                (heads_stmt tail r false) fuel s w wh qr qh limit sh).
Qed.

Lemma ForEach_visits_what_Query_lists_witness :
  (∃ l w', l ≡ₚ [user1; user3]
           ∧ ForEachTail 1 note_name 5 user2 FOLLOW [] world_followed
             = Some (Returned (visit note_name [] l), w'))
  ∧ (∃ l w', l ≡ₚ [user2]
             ∧ ForEachHead 1 note_name 5 user1 FOLLOW [] world_followed
               = Some (Returned (visit note_name [] l), w')).
Proof.
  apply (ForEach_visits_what_Query_lists 1 note_name 5 user2 user1 FOLLOW []
           world_followed
           (QueryTails zeroQR user2 FOLLOW 10 0 world_followed).2
           (QueryHeads zeroQR user1 FOLLOW 10 0 world_followed).2
           zeroQR
           (mkNodeQueryResult [user1; user3] "2" "0")
           (mkNodeQueryResult [user2] "1" "0") 10 2 1).
  - vm_compute. split; [reflexivity|discriminate].
  - vm_compute. discriminate.
  - constructor.
  - vm_compute. lia.
  - vm_compute. lia.
  - vm_compute. discriminate.
  - vm_compute. reflexivity.
  - vm_compute. reflexivity.
Defined.

Section Degrees.

Lemma count_eval (q : Stmt) (w : World) :
  faults w = [] →
  bind (db_ExecCount q) (λ count, ret count) w
  = (Ok (Z.of_nat (length (scan q (docs w)))), w).
Proof.
  intros Hf. unfold bind, db_ExecCount, store_call. by rewrite Hf.
Qed.

Lemma full_page_size (qr : NodeQueryResult) (q : Stmt) (limit : Z)
    (w : World) :
  faults w = [] → Z.of_nat (length (docs w)) ≤ limit →
  ∃ q1 w',
    query_page qr q limit 0 w = (Ok (q1, Z.of_nat (length (Results q1))), w')
    ∧ length (Results q1) = length (scan q (docs w)).
Proof.
  intros Hf Hl. rewrite query_page_eval
    by (unfold answers; rewrite Hf, take_nil; constructor).
  exists (mkNodeQueryResult (page limit 0 (rows q (docs w)))
            (fmt_d (wrap (0 + Z.of_nat (length (page limit 0
                                                     (rows q (docs w)))))))
            (fmt_d 0)).
  eexists. split; [reflexivity|]. simpl.
  rewrite page_all; [apply rows_length|].
  rewrite rows_length. pose proof (scan_length q (docs w)). lia.
Qed.

End Degrees.

(** X19: over a store that answers, [Indegree(head, verb)] is the number
    of rows that [QueryTails(head, verb, limit, 0)] returns when the limit
    holds them all, and [Outdegree(tail, verb)] is that number for
    [QueryHeads]; the count leaves the world as it is. *)
Theorem degree_is_the_size_of_the_full_page (w : World)
    (qr : NodeQueryResult) (head tail : Node) (r : RelationVerb)
    (limit : Z) :
  faults w = [] → Z.of_nat (length (docs w)) ≤ limit →
  (∃ q w', QueryTails qr head r limit 0 w
           = (Ok (q, Z.of_nat (length (Results q))), w')
           ∧ Indegree head r w = (Ok (Z.of_nat (length (Results q))), w))
  ∧ (∃ q w', QueryHeads qr tail r limit 0 w
             = (Ok (q, Z.of_nat (length (Results q))), w')
             ∧ Outdegree tail r w = (Ok (Z.of_nat (length (Results q))), w)).
Proof.
  intros Hf Hl. split.
  - destruct (full_page_size qr (tails_stmt head r true) limit w Hf Hl)
      as (q & w' & Hq & Hlen).
    exists q, w'. split; [done|]. unfold Indegree.
    rewrite count_eval by done. rewrite Hlen.
    by rewrite (scan_order_free (tails_stmt head r true)
                  (tails_stmt head r false)).
  - destruct (full_page_size qr (heads_stmt tail r true) limit w Hf Hl)
      as (q & w' & Hq & Hlen).
    exists q, w'. split; [done|]. unfold Outdegree.
    rewrite count_eval by done. rewrite Hlen.
    by rewrite (scan_order_free (heads_stmt tail r true)
                  (heads_stmt tail r false)).
Qed.

Lemma degree_is_the_size_of_the_full_page_witness :
  (Indegree user2 FOLLOW world_followed).1 = Ok 2
  ∧ (Outdegree user1 FOLLOW world_followed).1 = Ok 1.
Proof.
  destruct (degree_is_the_size_of_the_full_page world_followed zeroQR
              user2 user1 FOLLOW 10)
    as [(qt & wt & Hqt & Hin) (qh & wh & Hqh & Hout)].
  - reflexivity.
  - vm_compute. discriminate.
  - rewrite Hin, Hout. vm_compute in Hqt, Hqh.
    injection Hqt as <- _. injection Hqh as <- _. split; reflexivity.
Defined.

(** *** Node ids *)

Section NodeIds.

Lemma NewNodeId_answered (c : Counters) :
  counter_faults c = [] → (counter_value c + 1 < 2 ^ 64)%N →
  NewNodeId c
  = (pretty (counter_value c + 1)%N, None,
     mkCounters (<["id:node" := (counter_value c + 1)%N]> (values c)) []).
Proof.
  intros Hf Hb. unfold NewNodeId, db_Counter, counter_value in *.
  rewrite Hf. cbn [tail].
  assert (Hsmall : ∀ x : N, (x < 2 ^ 64)%N → uint64 x = x)
    by (intros x Hx; unfold uint64; by apply N.mod_small).
  destruct (values c !! "id:node") as [n|]; cbn [default from_option] in *.
  - change (id n) with n in *. by rewrite !(Hsmall (n + 1)%N Hb).
  - by rewrite !(Hsmall 1%N eq_refl).
Qed.

Lemma allocate_answered (n : nat) :
  ∀ c, counter_faults c = [] →
       (counter_value c + N.of_nat n < 2 ^ 64)%N →
       (allocate n c).1
       = (λ i : nat, (pretty (counter_value c + N.of_nat i + 1)%N, None))
           <$> seq 0 n.
Proof.
  induction n as [|n IH]; intros c Hf Hb; [done|].
  cbn [allocate]. rewrite NewNodeId_answered by (done || lia).
  set (c' := mkCounters _ _).
  specialize (IH c'). destruct (allocate n c') as [rest c''].
  cbn [fst] in *. rewrite IH.
  - assert (Hc' : counter_value c' = (counter_value c + 1)%N).
    { unfold counter_value, c'. simpl. by rewrite lookup_insert_eq. }
    rewrite Hc'. cbn [seq fmap list_fmap]. rewrite N.add_0_r. f_equal.
    rewrite <- fmap_S_seq, <- list_fmap_compose.
    apply list_fmap_ext. intros i x _. simpl. do 2 f_equal. lia.
  - done.
  - unfold counter_value, c'. simpl. rewrite lookup_insert_eq. simpl. lia.
Qed.

End NodeIds.

(** X20: over a store that answers, and while the counter stays below
    2^64, calls of [NewNodeId] in a row return without error the decimal
    texts of consecutive numbers, one past the value of the counter onward
    (["1"] on a store that has no counter yet): no two calls return the
    same id. *)
Theorem NewNodeId_ids_are_distinct (n : nat) (c : Counters) :
  counter_faults c = [] →
  (counter_value c + N.of_nat n < 2 ^ 64)%N →
  (allocate n c).1
  = (λ i : nat, (pretty (counter_value c + N.of_nat i + 1)%N, None))
      <$> seq 0 n
  ∧ NoDup (allocate n c).1.*1.
Proof.
  intros Hf Hb. pose proof (allocate_answered n c Hf Hb) as H.
  split; [done|]. rewrite H, <- list_fmap_compose.
  apply NoDup_fmap_2_strong; [|apply NoDup_seq].
  intros i j _ _ Heq. simpl in Heq. apply (inj pretty) in Heq. lia.
Qed.

Lemma NewNodeId_ids_are_distinct_witness :
  (allocate 3 (mkCounters ∅ [])).1
  = [("1", None); ("2", None); ("3", None)].
Proof.
  destruct (NewNodeId_ids_are_distinct 3 (mkCounters ∅ [])) as [H _].
  - reflexivity.
  - vm_compute. reflexivity.
  - rewrite H. reflexivity.
Defined.
